(** * Wheel spinner: weight normalization, equal shares and winner resolution

    A shallow embedding of the segment engine of the [WheelSpinner]
    component ([src/app/page.tsx]): [normalizeProbabilities],
    [calculateEqualShare], [getVisibleItems], [addItem], [removeItem],
    [updateProbability], [toggleItemVisibility], [saveItemLabel],
    [determineWinner] and the end of [spinWheel].  The source holds the
    component twice, once with the equal shares and the winner loop written
    inline and once with them as helpers; both compute the same, and the
    embedding follows the one with helpers.

    Conventions of the embedding.
    - A [WheelItem] is a record.  Its [probability] is a JavaScript number
      that only ever holds an integer (the initial 20, the 10 of a new item,
      a slider or [parseInt] value clamped to 1..99, or the result of
      [Math.round] and [Math.floor]), so it is a [Z].
    - The optional field [hidden?: boolean] is an [option bool]; [None] is
      [undefined].
    - Numbers come in two models.  In the exact one the quotients inside
      [normalizeProbabilities] and the angles of [determineWinner] are
      rationals ([Q]); it carries the statements that do not depend on how a
      double rounds: frames, order, clamps, integer shares, membership, and
      bounds on weights of at most 100.  In the binary64 one ([Double],
      [normalizeProbabilities64], [determineWinner64]) weights, totals,
      quotients and the boundaries of the arcs are the doubles the code
      computes, on Rocq's primitive floats; it carries the layout of the
      wheel, where a boundary that is one unit in the last place off decides
      the winner.
    - A [string] holds the bytes of the UTF-8 encoding of the text.
    - React state is passed explicitly: every handler maps the current
      [items] to the next ones, a rejected call returns them unchanged.
    - [Date.now().toString()] is an argument of [addItem]. *)

From Stdlib Require Import ZArith QArith Qround List String Ascii Bool Lia Lqa.
From Stdlib Require Import DecimalString.
From Stdlib Require Decimal Hexadecimal DecimalZ DecimalPos.
From Stdlib Require Import PrimFloat SpecFloat FloatOps.
Import ListNotations.

Local Open Scope string_scope.
Local Open Scope list_scope.
Local Open Scope Z_scope.

(** ** JavaScript primitives *)

Module Js.

(** [Math.round] of an exact quotient: the nearest integer, a tie going up.
    On doubles it is [Double.Math_round]. *)
Definition Math_round (x : Q) : Z := Qfloor (x + (1 # 2)).

(** [Math.floor (a / b)] on integers, [b] not zero. *)
Definition Math_floor_div (a b : Z) : Z := Qfloor (inject_Z a / inject_Z b).

Definition Qlt_bool (x y : Q) : bool := negb (Qle_bool y x).

(** Rounding toward zero, as the remainder operator does. *)
Definition Qtrunc (x : Q) : Z :=
  if Qle_bool 0 x then Qfloor x else Qceiling x.

(** [x % m]: the remainder takes the sign of the dividend. *)
Definition rem (x m : Q) : Q := (x - m * inject_Z (Qtrunc (x / m)))%Q.

(** Truthiness of a string: only the empty one is falsy. *)
Definition truthy_string (s : string) : bool :=
  match s with EmptyString => false | String _ _ => true end.

(** An optional string argument in a condition: [undefined] and the empty
    string are both falsy. *)
Definition truthy (s : option string) : option string :=
  match s with
  | Some v => if truthy_string v then Some v else None
  | None => None
  end.

(** The ASCII part of the white space [String.prototype.trim] strips. *)
Definition is_white_space (c : ascii) : bool :=
  let n := nat_of_ascii c in
  ((9 <=? n)%nat && (n <=? 13)%nat) || (n =? 32)%nat.

(** The white space beyond ASCII, by the bytes of its encoding.  Two bytes:
    U+00A0 (no-break space). *)
Definition is_white_space2 (a b : ascii) : bool :=
  (nat_of_ascii a =? 194)%nat && (nat_of_ascii b =? 160)%nat.

(** Three bytes: U+1680, U+2000 to U+200A, U+2028, U+2029, U+202F, U+205F,
    U+3000 and U+FEFF. *)
Definition is_white_space3 (a b c : ascii) : bool :=
  let x := nat_of_ascii a in
  let y := nat_of_ascii b in
  let z := nat_of_ascii c in
  ((x =? 225) && (y =? 154) && (z =? 128))%nat
  || ((x =? 226) && (y =? 128) && ((128 <=? z) && (z <=? 138)))%nat
  || ((x =? 226) && (y =? 128) && ((z =? 168) || (z =? 169) || (z =? 175)))%nat
  || ((x =? 226) && (y =? 129) && (z =? 159))%nat
  || ((x =? 227) && (y =? 128) && (z =? 128))%nat
  || ((x =? 239) && (y =? 187) && (z =? 191))%nat.

(** The first byte of a white space character of more than one byte. *)
Definition is_white_space_lead (a : ascii) : bool :=
  let x := nat_of_ascii a in
  ((x =? 194) || (x =? 225) || (x =? 226) || (x =? 227) || (x =? 239))%nat.

(** The string without its leading white space. *)
Fixpoint trim_start (s : string) : string :=
  match s with
  | EmptyString => EmptyString
  | String a rest =>
      if is_white_space a then trim_start rest
      else if is_white_space_lead a then
        match rest with
        | EmptyString => s
        | String b rest2 =>
            if is_white_space2 a b then trim_start rest2
            else
              match rest2 with
              | EmptyString => s
              | String c rest3 =>
                  if is_white_space3 a b c then trim_start rest3 else s
              end
        end
      else s
  end.

(** [!s.trim()]: a string of white space trims to the empty one, whatever
    is stripped at its end. *)
Definition trims_to_empty (s : string) : bool :=
  negb (truthy_string (trim_start s)).

(** [array.find] *)
Definition find {A} (f : A -> bool) (l : list A) : option A := List.find f l.

(** [array.map] with the index as second argument. *)
Fixpoint mapi_from {A B} (i : nat) (f : A -> nat -> B) (l : list A) : list B :=
  match l with
  | [] => []
  | x :: rest => f x i :: mapi_from (S i) f rest
  end.

Definition mapi {A B} (f : A -> nat -> B) (l : list A) : list B :=
  mapi_from 0 f l.

End Js.

(** ** Data model *)

Record WheelItem : Type := mkItem {
  id : string;
  label : string;
  probability : Z;
  color : string;
  hidden : option bool
}.

(** [{ ...item, probability: p }] *)
Definition with_probability (item : WheelItem) (p : Z) : WheelItem :=
  mkItem (id item) (label item) p (color item) (hidden item).

(** [{ ...item, hidden: h }] *)
Definition with_hidden (item : WheelItem) (h : bool) : WheelItem :=
  mkItem (id item) (label item) (probability item) (color item) (Some h).

(** [{ ...item, label: l }] *)
Definition with_label (item : WheelItem) (l : string) : WheelItem :=
  mkItem (id item) l (probability item) (color item) (hidden item).

(** [item.hidden] in a condition: [undefined] is falsy. *)
Definition is_hidden (item : WheelItem) : bool :=
  match hidden item with Some b => b | None => false end.

Definition COLORS : list string :=
  [ "#FF6384"; "#36A2EB"; "#FFCE56"; "#4BC0C0"; "#9966FF";
    "#FF9F40"; "#8AC926"; "#1982C4"; "#6A4C93"; "#F15BB5" ].

(** [COLORS[i]] *)
Definition COLORS_at (i : nat) : string := nth i COLORS EmptyString.

(** The initial value of the [items] state. *)
Definition initial_items : list WheelItem :=
  [ mkItem "1" "Prize 1" 20 (COLORS_at 0) None;
    mkItem "2" "Prize 2" 20 (COLORS_at 1) None;
    mkItem "3" "Prize 3" 20 (COLORS_at 2) None;
    mkItem "4" "Prize 4" 20 (COLORS_at 3) None;
    mkItem "5" "Prize 5" 20 (COLORS_at 4) None ].

(** [items.reduce((sum, item) => sum + item.probability, 0)] *)
Definition sum_probability (items : list WheelItem) : Z :=
  fold_left (fun sum item => sum + probability item) items 0.

(** ** Utility functions *)

Definition calculateEqualShare (visibleItems : list WheelItem) : list WheelItem :=
  let n := Z.of_nat (List.length visibleItems) in
  let equalShare := Js.Math_floor_div 100 n in
  Js.mapi
    (fun item index =>
       with_probability item
         (if (Z.of_nat index =? n - 1)
          then 100 - equalShare * (n - 1)
          else equalShare))
    visibleItems.

Definition getVisibleItems (items : list WheelItem) : list WheelItem :=
  filter (fun item => negb (is_hidden item)) items.

(** ** Normalizer *)

Definition normalizeProbabilities
    (updatedItems : list WheelItem) (fixedId : option string) : list WheelItem :=
  let safeItems :=
    map (fun item => with_probability item (Z.max 1 (probability item)))
        updatedItems in
  let total := sum_probability safeItems in
  if total =? 0 then safeItems
  else
    match Js.truthy fixedId with
    | Some fid =>
        match Js.find (fun item => id item =? fid)%string safeItems with
        | None => safeItems
        | Some fixedItem =>
            let remainingTotal := 100 - probability fixedItem in
            let otherItems :=
              filter (fun item => negb (id item =? fid)%string) safeItems in
            let otherItemsTotal := sum_probability otherItems in
            map (fun item =>
                   if (id item =? fid)%string then item
                   else
                     let ratio :=
                       if otherItemsTotal =? 0 then 1%Q
                       else (inject_Z (probability item)
                             / inject_Z otherItemsTotal)%Q in
                     with_probability item
                       (Z.max 1
                          (Js.Math_round (inject_Z remainingTotal * ratio)%Q)))
                safeItems
        end
    | None =>
        map (fun item =>
               with_probability item
                 (Z.max 1
                    (Js.Math_round
                       ((inject_Z (probability item) / inject_Z total)
                        * 100)%Q)))
            safeItems
    end.

(** ** Item management *)

(** [addItem]: [newItemLabel] is the text of the input field, [now] the
    string [Date.now().toString()]. *)
Definition addItem (newItemLabel now : string) (items : list WheelItem)
  : list WheelItem :=
  if Js.trims_to_empty newItemLabel then items
  else
    let newItem :=
      mkItem now newItemLabel 10
             (COLORS_at (Nat.modulo (List.length items) (List.length COLORS))) None in
    normalizeProbabilities (items ++ [newItem]) None.

(** The merge shared by [removeItem] and [toggleItemVisibility]:
    [item.hidden ? item : normalizedVisible.find(ni => ni.id === item.id) || item] *)
Definition merge_visible (normalizedVisible updatedItems : list WheelItem)
  : list WheelItem :=
  map (fun item =>
         if is_hidden item then item
         else
           match Js.find (fun ni => id ni =? id item)%string normalizedVisible with
           | Some ni => ni
           | None => item
           end)
      updatedItems.

Definition removeItem (rid : string) (items : list WheelItem) : list WheelItem :=
  if (List.length items <=? 2)%nat then items
  else
    let updatedItems := filter (fun item => negb (id item =? rid)%string) items in
    let visibleItems := getVisibleItems updatedItems in
    let normalizedVisible := calculateEqualShare visibleItems in
    merge_visible normalizedVisible updatedItems.

Definition updateProbability (uid : string) (value : Z) (items : list WheelItem)
  : list WheelItem :=
  let newValue := Z.max 1 (Z.min 99 value) in
  normalizeProbabilities
    (map (fun item =>
            if (id item =? uid)%string then with_probability item newValue
            else item)
         items)
    (Some uid).

Definition toggleItemVisibility (tid : string) (items : list WheelItem)
  : list WheelItem :=
  let updatedItems :=
    map (fun item =>
           if (id item =? tid)%string
           then with_hidden item (negb (is_hidden item))
           else item)
        items in
  let visibleItems := getVisibleItems updatedItems in
  let normalizedVisible := calculateEqualShare visibleItems in
  merge_visible normalizedVisible updatedItems.

(** ** Winner resolution *)

(** In the exact model: the widths and the boundaries of the arcs are
    rationals.  The same code on doubles is [determineWinner64] below. *)

(** [(360 * item.probability) / 100] *)
Definition sliceAngle (item : WheelItem) : Q :=
  ((360 * inject_Z (probability item)) / 100)%Q.

(** [normalizedAngle >= currentAngle && normalizedAngle < currentAngle + sliceAngle] *)
Definition in_slice (normalizedAngle currentAngle : Q) (item : WheelItem) : bool :=
  Qle_bool currentAngle normalizedAngle
  && Js.Qlt_bool normalizedAngle (currentAngle + sliceAngle item)%Q.

(** The [for ... of] loop of [determineWinner], [currentAngle] being its
    accumulator. *)
Fixpoint winner_loop (normalizedAngle currentAngle : Q)
    (normalizedItems : list WheelItem) : option WheelItem :=
  match normalizedItems with
  | [] => None
  | item :: rest =>
      if in_slice normalizedAngle currentAngle item then Some item
      else winner_loop normalizedAngle (currentAngle + sliceAngle item)%Q rest
  end.

Definition determineWinner (currentRotation : Q) (visibleItems : list WheelItem)
  : option WheelItem :=
  let normalizedAngle := Js.rem currentRotation 360 in
  let normalizedItems := normalizeProbabilities visibleItems None in
  winner_loop normalizedAngle 0 normalizedItems.

(** The end of a spin in [spinWheel]: nothing happens with fewer than two
    visible items, otherwise the winner is resolved among the visible ones at
    the final rotation. *)
Definition spinWheel_winner (currentRotation : Q) (items : list WheelItem)
  : option WheelItem :=
  let visibleItems := getVisibleItems items in
  if (List.length visibleItems <? 2)%nat then None
  else determineWinner currentRotation visibleItems.

(** ** Binary64 numbers *)

Module Double.

(** The double an integer denotes: the nearest one, ties to even. *)
Definition of_Z (z : Z) : float :=
  SF2Prim (binary_normalize prec emax z 0 false).

(** The rational a finite double is; [None] for [NaN] and the infinities. *)
Definition value (x : float) : option Q :=
  match Prim2SF x with
  | S754_zero _ => Some 0%Q
  | S754_finite s m e =>
      let v := (inject_Z (Zpos m) * Qpower 2 e)%Q in
      Some (if s then (- v)%Q else v)
  | S754_infinity _ => None
  | S754_nan => None
  end.

(** [theta >= x], [theta] being finite and given as the rational it is. *)
Definition ge (theta : Q) (x : float) : bool :=
  match Prim2SF x with
  | S754_nan => false
  | S754_infinity s => s
  | _ => match value x with Some v => Qle_bool v theta | None => false end
  end.

(** [theta < x], [theta] being finite and given as the rational it is. *)
Definition lt (theta : Q) (x : float) : bool :=
  match Prim2SF x with
  | S754_nan => false
  | S754_infinity s => negb s
  | _ => match value x with Some v => Js.Qlt_bool theta v | None => false end
  end.

(** [Math.max(x, y)]: [NaN] when either is, and [+0] above [-0]. *)
Definition Math_max (x y : float) : float :=
  if is_nan x || is_nan y then nan
  else if (x <? y)%float then y
  else if (y <? x)%float then x
  else if get_sign x then y else x.

(** [Math.round(x)]: the integer nearest to [x], a tie going up; [NaN], the
    infinities and the zeros are returned as they are, and what rounds to
    zero from below is [-0]. *)
Definition Math_round (x : float) : float :=
  match value x with
  | None => x
  | Some v =>
      if is_zero x then x
      else
        let n := Qfloor (v + (1 # 2)) in
        if (n =? 0)%Z then (if get_sign x then neg_zero else zero)
        else of_Z n
  end.

(** Not [NaN]. *)
Definition is_number (x : float) : bool :=
  match Prim2SF x with
  | S754_nan => false
  | _ => true
  end.

End Double.

(** ** Normalizer and winner resolution in binary64 *)

(** [{ ...item, probability: w }], the weight being the double [w]. *)
Record weighted : Type := mkWeighted {
  item_of : WheelItem;
  weight64 : float
}.

(** [items.reduce((sum, item) => sum + item.probability, 0)] *)
Definition sum_weight64 (items : list weighted) : float :=
  fold_left (fun sum item => (sum + weight64 item)%float) items 0%float.

(** [normalizeProbabilities] with every number as the double it is. *)
Definition normalizeProbabilities64
    (updatedItems : list WheelItem) (fixedId : option string) : list weighted :=
  let safeItems :=
    map (fun item =>
           mkWeighted item (Double.Math_max 1 (Double.of_Z (probability item))))
        updatedItems in
  let total := sum_weight64 safeItems in
  if (total =? 0)%float then safeItems
  else
    match Js.truthy fixedId with
    | Some fid =>
        match Js.find (fun it => id (item_of it) =? fid)%string safeItems with
        | None => safeItems
        | Some fixedItem =>
            let remainingTotal := (100 - weight64 fixedItem)%float in
            let otherItems :=
              filter (fun it => negb (id (item_of it) =? fid)%string)
                     safeItems in
            let otherItemsTotal := sum_weight64 otherItems in
            map (fun it =>
                   if (id (item_of it) =? fid)%string then it
                   else
                     let ratio :=
                       if (otherItemsTotal =? 0)%float then 1%float
                       else (weight64 it / otherItemsTotal)%float in
                     mkWeighted (item_of it)
                       (Double.Math_max 1
                          (Double.Math_round (remainingTotal * ratio)%float)))
                safeItems
        end
    | None =>
        map (fun it =>
               mkWeighted (item_of it)
                 (Double.Math_max 1
                    (Double.Math_round
                       ((weight64 it / total) * 100)%float)))
            safeItems
    end.

(** [(360 * item.probability) / 100] *)
Definition sliceAngle64 (item : weighted) : float :=
  ((360 * weight64 item) / 100)%float.

(** [normalizedAngle >= currentAngle && normalizedAngle < currentAngle + sliceAngle] *)
Definition in_slice64 (normalizedAngle : Q) (currentAngle : float)
    (item : weighted) : bool :=
  Double.ge normalizedAngle currentAngle
  && Double.lt normalizedAngle (currentAngle + sliceAngle64 item)%float.

(** The [for ... of] loop of [determineWinner]; [currentAngle += sliceAngle]
    is an addition of doubles. *)
Fixpoint winner_loop64 (normalizedAngle : Q) (currentAngle : float)
    (normalizedItems : list weighted) : option weighted :=
  match normalizedItems with
  | [] => None
  | item :: rest =>
      if in_slice64 normalizedAngle currentAngle item then Some item
      else winner_loop64 normalizedAngle
             (currentAngle + sliceAngle64 item)%float rest
  end.

(** [determineWinner].  The rotation is a finite double, given as the
    rational it is; the remainder by 360 is exact in binary64, so the pointer
    is computed on rationals. *)
Definition determineWinner64 (currentRotation : Q)
    (visibleItems : list WheelItem) : option weighted :=
  let normalizedAngle := Js.rem currentRotation 360 in
  let normalizedItems := normalizeProbabilities64 visibleItems None in
  winner_loop64 normalizedAngle 0%float normalizedItems.

(** ** Sequences of operations *)

(** What the user can do to the collection.  [AddSegment] carries the label
    typed and the time stamp [Date.now().toString()] that becomes the id. *)
Inductive operation : Type :=
| AddSegment (newItemLabel now : string)
| RemoveSegment (rid : string)
| SetWeight (uid : string) (value : Z)
| ToggleVisibility (tid : string)
| SetLabel (editingItemId editingLabel : string).

(** [saveItemLabel] *)
Definition saveItemLabel (editingItemId editingLabel : string)
    (items : list WheelItem) : list WheelItem :=
  if Js.truthy_string editingItemId then
    map (fun item =>
           if (id item =? editingItemId)%string
           then with_label item editingLabel
           else item)
        items
  else items.

Definition apply_operation (o : operation) (items : list WheelItem)
  : list WheelItem :=
  match o with
  | AddSegment l now => addItem l now items
  | RemoveSegment rid => removeItem rid items
  | SetWeight uid value => updateProbability uid value items
  | ToggleVisibility tid => toggleItemVisibility tid items
  | SetLabel eid l => saveItemLabel eid l items
  end.

Fixpoint run (ops : list operation) (items : list WheelItem) : list WheelItem :=
  match ops with
  | [] => items
  | o :: rest => run rest (apply_operation o items)
  end.

Definition ids (items : list WheelItem) : list string := map id items.

Definition id_in (i : string) (items : list WheelItem) : bool :=
  existsb (fun item => id item =? i)%string items.

(** The clock hands out ids that are not in use: every time stamp of an
    [AddSegment] differs from the ids present when it is issued. *)
Fixpoint fresh_stamps (ops : list operation) (items : list WheelItem) : bool :=
  match ops with
  | [] => true
  | o :: rest =>
      match o with
      | AddSegment _ now => negb (id_in now items)
      | _ => true
      end
      && fresh_stamps rest (apply_operation o items)
  end.

(** ** Observations *)

Definition probabilities (items : list WheelItem) : list Z :=
  map probability items.

Definition visible_sum (items : list WheelItem) : Z :=
  sum_probability (getVisibleItems items).

Definition visible_count (items : list WheelItem) : nat :=
  List.length (getVisibleItems items).

Definition no_hidden (items : list WheelItem) : bool :=
  forallb (fun item => negb (is_hidden item)) items.

(** Everything of an item but its weight. *)
Definition frame (item : WheelItem) : string * string * string * option bool :=
  (id item, label item, color item, hidden item).

(** ** The loop of [determineWinner] as a transition system *)

Inductive loop_state : Type :=
| Scanning (currentAngle : Q) (rest : list WheelItem)
| Returned (result : option WheelItem).

(** One turn of the loop: return the item when the angle falls in its slice,
    else move [currentAngle] past it; fall out of the loop on an empty rest. *)
Inductive loop_step (normalizedAngle : Q) : loop_state -> loop_state -> Prop :=
| step_return (currentAngle : Q) (item : WheelItem) (rest : list WheelItem) :
    in_slice normalizedAngle currentAngle item = true ->
    loop_step normalizedAngle
      (Scanning currentAngle (item :: rest)) (Returned (Some item))
| step_next (currentAngle : Q) (item : WheelItem) (rest : list WheelItem) :
    in_slice normalizedAngle currentAngle item = false ->
    loop_step normalizedAngle
      (Scanning currentAngle (item :: rest))
      (Scanning (currentAngle + sliceAngle item)%Q rest)
| step_exhausted (currentAngle : Q) :
    loop_step normalizedAngle (Scanning currentAngle []) (Returned None).

Inductive loop_returns (normalizedAngle : Q)
  : loop_state -> option WheelItem -> Prop :=
| returns_now (result : option WheelItem) :
    loop_returns normalizedAngle (Returned result) result
| returns_later (st st' : loop_state) (result : option WheelItem) :
    loop_step normalizedAngle st st' ->
    loop_returns normalizedAngle st' result ->
    loop_returns normalizedAngle st result.

(** A call [determineWinner(currentRotation, visibleItems)] returning
    [result]. *)
Definition call_returns (currentRotation : Q) (visibleItems : list WheelItem)
    (result : option WheelItem) : Prop :=
  loop_returns (Js.rem currentRotation 360)
    (Scanning 0 (normalizeProbabilities visibleItems None)) result.

(** ** The layout of the wheel in the words of the specification *)

Module Spec.

(** The angular width of a segment: [weight/100 * 360] degrees. *)
Definition arc_width (segment : WheelItem) : Q :=
  (inject_Z (probability segment) / 100 * 360)%Q.

(** Where the arc of the segment at position [i] starts, the arcs being
    contiguous from 0 in the order of the list. *)
Fixpoint cumulative_start (segments : list WheelItem) (i : nat) : Q :=
  match i, segments with
  | S k, segment :: rest => (arc_width segment + cumulative_start rest k)%Q
  | _, _ => 0%Q
  end.

(** [theta] lies in the half-open interval
    [[cumulative_start, cumulative_start + arc_width)] of position [i]. *)
Definition in_arc (segments : list WheelItem) (i : nat) (theta : Q) : Prop :=
  match nth_error segments i with
  | Some segment =>
      (cumulative_start segments i <= theta)%Q
      /\ (theta < cumulative_start segments i + arc_width segment)%Q
  | None => False
  end.

End Spec.

(** The same interval when the layout starts at [start] instead of 0. *)
Definition in_arc_from (start : Q) (segments : list WheelItem) (i : nat)
    (theta : Q) : Prop :=
  match nth_error segments i with
  | Some segment =>
      (start + Spec.cumulative_start segments i <= theta)%Q
      /\ (theta < start + Spec.cumulative_start segments i
                  + Spec.arc_width segment)%Q
  | None => False
  end.

(** ** The layout of the wheel in binary64 *)

(** Where the arc at position [i] starts: the widths of the arcs before it,
    added one after the other from 0 in the order of the list, every sum
    rounded to a double. *)
Fixpoint cumulative_start64 (arcs : list weighted) (i : nat) : float :=
  match i with
  | O => 0%float
  | S k =>
      match nth_error arcs k with
      | Some arc => (cumulative_start64 arcs k + sliceAngle64 arc)%float
      | None => cumulative_start64 arcs k
      end
  end.

(** [theta] lies in the half-open interval of position [i], whose ends are
    doubles. *)
Definition in_arc64 (arcs : list weighted) (i : nat) (theta : Q) : Prop :=
  match nth_error arcs i with
  | Some arc =>
      Double.ge theta (cumulative_start64 arcs i) = true
      /\ Double.lt theta (cumulative_start64 arcs i + sliceAngle64 arc)%float
         = true
  | None => False
  end.

(** None of the boundaries of the arcs is [NaN]. *)
Definition boundaries_are_numbers (arcs : list weighted) : bool :=
  forallb (fun i => Double.is_number (cumulative_start64 arcs i))
          (seq 0 (S (List.length arcs))).

(** A segment with the weight it was given, when nothing is re-normalized. *)
Definition as_given (item : WheelItem) : weighted :=
  mkWeighted item (Double.of_Z (probability item)).

(** ** Scenarios *)

(** The time stamp of the [k]-th added segment, one millisecond apart. *)
Definition timestamp (k : nat) : string :=
  NilEmpty.string_of_uint (N.to_uint (1700000000000 + N.of_nat k)).

(** Adding [n] segments one after the other. *)
Definition add_segments (n : nat) : list operation :=
  map (fun k => AddSegment "Prize" (timestamp k)) (seq 0 n).

(** Hiding every segment of the initial collection. *)
Definition hide_all : list operation :=
  [ ToggleVisibility "1"; ToggleVisibility "2"; ToggleVisibility "3";
    ToggleVisibility "4"; ToggleVisibility "5" ].

(** Id, weight and hidden flag of every item. *)
Definition summary (items : list WheelItem) : list (string * Z * option bool) :=
  map (fun item => (id item, probability item, hidden item)) items.

(** The initial collection after [setWeight("3", 50)]. *)
Definition pinned_scenario : list WheelItem :=
  updateProbability "3" 50 initial_items.

(** The initial collection after hiding segment 2. *)
Definition hidden_scenario : list WheelItem :=
  toggleItemVisibility "2" initial_items.

(** What [addItem] hands to the normalizer once segment 2 is hidden. *)
Definition hidden_then_added : list WheelItem :=
  hidden_scenario ++ [mkItem (timestamp 0) "Prize" 10 (COLORS_at 5) None].

(** A collection of two segments. *)
Definition two_items : list WheelItem :=
  [ mkItem "1" "Prize 1" 50 (COLORS_at 0) None;
    mkItem "2" "Prize 2" 50 (COLORS_at 1) None ].

(** Eleven segments, equalized by showing the first one again: ten of
    weight 9 and the last of weight 10. *)
Definition eleven_segments : list WheelItem :=
  run (add_segments 6 ++ [ToggleVisibility "1"; ToggleVisibility "1"])
      initial_items.

(** Twelve segments, equalized the same way: eleven of weight 8 and the last
    of weight 12. *)
Definition twelve_segments : list WheelItem :=
  run (add_segments 7 ++ [ToggleVisibility "1"; ToggleVisibility "1"])
      initial_items.

(** The same input and output, field by field, but for the weight. *)
Definition same_frame (input output : WheelItem) : Prop :=
  id output = id input /\ label output = label input
  /\ color output = color input /\ hidden output = hidden input.

(** ** Auxiliary definitions of the proofs *)

Fixpoint Zsum (l : list Z) : Z :=
  match l with
  | [] => 0
  | x :: rest => x + Zsum rest
  end.

(** [safeItems]: every weight clamped to at least 1. *)
Definition clamp (item : WheelItem) : WheelItem :=
  with_probability item (Z.max 1 (probability item)).

(** The rounded, clamped share of [k] that a weight [p] gets out of [t]. *)
Definition share (k t p : Z) : Z := Z.max 1 ((2 * (k * p) + t) / (2 * t)).

(** The list [updateProbability] hands to the normalizer. *)
Definition with_new_value (uid : string) (newValue : Z) (items : list WheelItem)
  : list WheelItem :=
  map (fun item =>
         if (id item =? uid)%string then with_probability item newValue
         else item)
      items.

Definition clamped_sum (items : list WheelItem) : Z :=
  Zsum (map (Z.max 1) (probabilities items)).

(** The visible weights add up to 100 give or take one unit per visible
    item. *)
Definition within_tolerance (items : list WheelItem) : Prop :=
  Z.abs (visible_sum items - 100) <= Z.of_nat (visible_count items).

(** What every operation maintains: unique ids, at least two items, and,
    while nothing is hidden, the tolerance on the weights as they are and as
    the normalizer would clamp them. *)
Record invariant (items : list WheelItem) : Prop := {
  unique_ids : NoDup (ids items);
  at_least_two : (2 <= List.length items)%nat;
  all_visible_tolerance :
    no_hidden items = true ->
    Z.abs (sum_probability items - 100) <= Z.of_nat (List.length items)
    /\ Z.abs (clamped_sum items - 100) <= Z.of_nat (List.length items)
}.

(** What the loop returns from a state on, computed. *)
Definition loop_result (theta : Q) (st : loop_state) : option WheelItem :=
  match st with
  | Scanning currentAngle rest => winner_loop theta currentAngle rest
  | Returned result => result
  end.

(** The integers from [lo] on, [n] of them. *)
Definition range (lo : Z) (n : nat) : list Z :=
  map (fun k => lo + Z.of_nat k) (seq 0 n).

(** [safeItems] in binary64. *)
Definition safe64 (item : WheelItem) : weighted :=
  mkWeighted item (Double.Math_max 1 (Double.of_Z (probability item))).

(** The width of the arc of an integer weight [w] is within [2^-44] of
    [w/100 * 360]. *)
Definition width_close (w : Z) : bool :=
  match Double.value ((360 * Double.of_Z w) / 100)%float with
  | Some v =>
      Qle_bool (inject_Z w / 100 * 360 - (1 # 17592186044416)) v
      && Qle_bool v (inject_Z w / 100 * 360 + (1 # 17592186044416))
  | None => false
  end.

(** ** The winner popup *)

(** [removeWinnerItem]: the new items and the new [winner]. *)
Definition removeWinnerItem (winner : option WheelItem) (items : list WheelItem)
  : list WheelItem * option WheelItem :=
  match winner with
  | Some w => (removeItem (id w) items, None)
  | None => (items, None)
  end.

(** The [Hide] button of the popup:
    [toggleItemVisibility(winner.id); setWinner(null)]. *)
Definition hideWinner (winner : WheelItem) (items : list WheelItem)
  : list WheelItem * option WheelItem :=
  (toggleItemVisibility (id winner) items, None).

(** ** The spin animation *)

(** [Math.min] on rationals. *)
Definition Math_min (x y : Q) : Q := if Qle_bool x y then x else y.

(** [const easeOut = (t) => 1 - Math.pow(1 - t, 3)] *)
Definition easeOut (t : Q) : Q := (1 - (1 - t) ^ 3)%Q.

Definition duration : Q := 5000.

(** [Math.min(elapsed / duration, 1)] *)
Definition progress_at (elapsed : Q) : Q := Math_min (elapsed / duration) 1.

(** [1800 + Math.random() * 1800], [random] being the value drawn; the sum
    is exact here, while the code rounds it to a double. *)
Definition spinAngle_of (random : Q) : Q := (1800 + random * 1800)%Q.

(** [rotation + spinAngle * easeOut(progress)] *)
Definition rotation_at (rotation spinAngle elapsed : Q) : Q :=
  (rotation + spinAngle * easeOut (progress_at elapsed))%Q.

(** The part of the component state a spin writes. *)
Record spin_state : Type := mkSpin {
  spinning : bool;
  rotation_shown : Q;
  winner_shown : option WheelItem
}.

(** The calls of [animate], one per animation frame; [frames] lists the
    values of [Date.now() - startTime] the calls read, [st] is the state
    before the call.  A call with [progress < 1] asks for the next frame; the
    first call with [progress = 1] resolves the winner among the visible
    items captured when the spin started, and ends the spin. *)
Fixpoint animate (rotation spinAngle : Q) (visibleItems : list WheelItem)
    (frames : list Q) (st : spin_state) : spin_state :=
  match frames with
  | [] => st
  | elapsed :: later =>
      let currentRotation := rotation_at rotation spinAngle elapsed in
      if Js.Qlt_bool (progress_at elapsed) 1
      then animate rotation spinAngle visibleItems later
             (mkSpin (spinning st) currentRotation (winner_shown st))
      else
        match determineWinner currentRotation visibleItems with
        | Some winningItem => mkSpin false currentRotation (Some winningItem)
        | None => mkSpin false currentRotation (winner_shown st)
        end
  end.

(** [spinWheel]: refused while a spin is running or with fewer than two
    visible items. *)
Definition spinWheel (random : Q) (frames : list Q) (items : list WheelItem)
    (st : spin_state) : spin_state :=
  if spinning st then st
  else
    let visibleItems := getVisibleItems items in
    if (List.length visibleItems <? 2)%nat then st
    else
      animate (rotation_shown st) (spinAngle_of random) visibleItems frames
        (mkSpin true (rotation_shown st) None).

(** ** Editing a weight as text *)

Module JsNumber.

Definition decimal_digit (c : ascii) : option (Decimal.uint -> Decimal.uint) :=
  match c with
  | "0"%char => Some Decimal.D0 | "1"%char => Some Decimal.D1
  | "2"%char => Some Decimal.D2 | "3"%char => Some Decimal.D3
  | "4"%char => Some Decimal.D4 | "5"%char => Some Decimal.D5
  | "6"%char => Some Decimal.D6 | "7"%char => Some Decimal.D7
  | "8"%char => Some Decimal.D8 | "9"%char => Some Decimal.D9
  | _ => None
  end.

Definition hexadecimal_digit (c : ascii)
  : option (Hexadecimal.uint -> Hexadecimal.uint) :=
  match c with
  | "0"%char => Some Hexadecimal.D0 | "1"%char => Some Hexadecimal.D1
  | "2"%char => Some Hexadecimal.D2 | "3"%char => Some Hexadecimal.D3
  | "4"%char => Some Hexadecimal.D4 | "5"%char => Some Hexadecimal.D5
  | "6"%char => Some Hexadecimal.D6 | "7"%char => Some Hexadecimal.D7
  | "8"%char => Some Hexadecimal.D8 | "9"%char => Some Hexadecimal.D9
  | "a"%char | "A"%char => Some Hexadecimal.Da
  | "b"%char | "B"%char => Some Hexadecimal.Db
  | "c"%char | "C"%char => Some Hexadecimal.Dc
  | "d"%char | "D"%char => Some Hexadecimal.Dd
  | "e"%char | "E"%char => Some Hexadecimal.De
  | "f"%char | "F"%char => Some Hexadecimal.Df
  | _ => None
  end.

(** The longest prefix of decimal digits. *)
Fixpoint decimal_prefix (s : string) : Decimal.uint :=
  match s with
  | EmptyString => Decimal.Nil
  | String c rest =>
      match decimal_digit c with
      | Some digit => digit (decimal_prefix rest)
      | None => Decimal.Nil
      end
  end.

(** The longest prefix of hexadecimal digits. *)
Fixpoint hexadecimal_prefix (s : string) : Hexadecimal.uint :=
  match s with
  | EmptyString => Hexadecimal.Nil
  | String c rest =>
      match hexadecimal_digit c with
      | Some digit => digit (hexadecimal_prefix rest)
      | None => Hexadecimal.Nil
      end
  end.

Definition decimal_value (sign : Z) (s : string) : option Z :=
  match decimal_prefix s with
  | Decimal.Nil => None
  | digits => Some (sign * Z.of_uint digits)
  end.

Definition hexadecimal_value (sign : Z) (s : string) : option Z :=
  match hexadecimal_prefix s with
  | Hexadecimal.Nil => None
  | digits => Some (sign * Z.of_hex_uint digits)
  end.

(** After the sign: a [0x] or [0X] prefix selects radix 16. *)
Definition parse_unsigned (sign : Z) (s : string) : option Z :=
  match s with
  | String "0"%char (String "x"%char rest) => hexadecimal_value sign rest
  | String "0"%char (String "X"%char rest) => hexadecimal_value sign rest
  | _ => decimal_value sign s
  end.

(** [parseInt(s)] without a radix; [None] is [NaN].  Leading white space is
    skipped, a sign is read, then the longest run of digits; what follows
    the digits is ignored. *)
Definition parseInt (s : string) : option Z :=
  match Js.trim_start s with
  | String "-"%char rest => parse_unsigned (-1) rest
  | String "+"%char rest => parse_unsigned 1 rest
  | trimmed => parse_unsigned 1 trimmed
  end.

(** [Number.MAX_SAFE_INTEGER] *)
Definition MAX_SAFE_INTEGER : Z := 2 ^ 53 - 1.

(** [n.toString()] of a safe integer: its decimal digits, after a minus sign
    when it is negative.  Beyond the safe integers the digits are those of
    the shortest decimal that reads back as the double, in exponent notation
    from [10^21] on; that part is not modelled and gives [None]. *)
Definition toString (n : Z) : option string :=
  if Z.abs n <=? MAX_SAFE_INTEGER
  then Some (NilEmpty.string_of_int (Z.to_int n))
  else None.

(** [x || 0] on a number: [NaN] and 0 are falsy. *)
Definition or_zero (x : option Z) : Z :=
  match x with Some n => n | None => 0 end.

End JsNumber.

(** [startEditingProbability]: the id under edit and the text the field is
    filled with; [None] where [toString] is not modelled. *)
Definition startEditingProbability (item : WheelItem)
  : option (option string * string) :=
  match JsNumber.toString (probability item) with
  | Some text => Some (Some (id item), text)
  | None => None
  end.

(** [saveProbability] on the items. *)
Definition saveProbability (editingProbabilityId : option string)
    (editingProbability : string) (items : list WheelItem) : list WheelItem :=
  match Js.truthy editingProbabilityId with
  | None => items
  | Some eid =>
      let value :=
        Z.max 1 (Z.min 99 (JsNumber.or_zero
                             (JsNumber.parseInt editingProbability))) in
      updateProbability eid value items
  end.

(** ** Bounded runs *)

(** Every state along the run has at most [bound] segments. *)
Fixpoint sizes_at_most (bound : nat) (ops : list operation)
    (items : list WheelItem) : bool :=
  match ops with
  | [] => true
  | o :: rest =>
      (List.length (apply_operation o items) <=? bound)%nat
      && sizes_at_most bound rest (apply_operation o items)
  end.

(** * Arithmetic of the JavaScript primitives *)

Section Rounding.

Lemma Math_floor_div_Z (a b : Z) : Js.Math_floor_div a b = a / b.
Proof. unfold Js.Math_floor_div. symmetry. apply Zdiv_Qdiv. Qed.

Lemma inject_Z_nonzero (b : Z) : 0 < b -> ~ inject_Z b == 0.
Proof. intros Hb H. unfold Qeq in H. simpl in H. lia. Qed.

Lemma Math_round_quotient (a b : Z) :
  0 < b -> Js.Math_round (inject_Z a / inject_Z b) = (2 * a + b) / (2 * b).
Proof.
  intros Hb. unfold Js.Math_round.
  rewrite Zdiv_Qdiv. apply Qfloor_comp.
  rewrite !inject_Z_mult, inject_Z_plus, inject_Z_mult.
  pose proof (inject_Z_nonzero b Hb) as Hq.
  field. auto.
Qed.

(** [Math.round((p / total) * 100)] *)
Lemma Math_round_share (p total : Z) :
  0 < total ->
  Js.Math_round ((inject_Z p / inject_Z total) * 100)
  = (2 * (100 * p) + total) / (2 * total).
Proof.
  intros Ht. rewrite <- Math_round_quotient by assumption.
  unfold Js.Math_round. apply Qfloor_comp.
  rewrite inject_Z_mult.
  pose proof (inject_Z_nonzero total Ht) as Hq.
  change (inject_Z 100) with 100%Q. field. auto.
Qed.

(** [Math.round(remainingTotal * (p / otherItemsTotal))] *)
Lemma Math_round_pinned (r p total : Z) :
  0 < total ->
  Js.Math_round (inject_Z r * (inject_Z p / inject_Z total))
  = (2 * (r * p) + total) / (2 * total).
Proof.
  intros Ht. rewrite <- Math_round_quotient by assumption.
  unfold Js.Math_round. apply Qfloor_comp.
  rewrite inject_Z_mult.
  pose proof (inject_Z_nonzero total Ht) as Hq.
  field. auto.
Qed.

(** The rounded share of a non-negative amount [k * p / t], clamped to 1,
    stays within one unit of the exact share. *)
Lemma clamped_share_bounds (k p t : Z) :
  0 <= k -> 0 <= p -> 0 < t ->
  let m := Z.max 1 ((2 * (k * p) + t) / (2 * t)) in
  2 * (k * p) - t < 2 * t * m /\ 2 * t * m <= 2 * (k * p) + 2 * t.
Proof.
  intros Hk Hp Ht m. subst m.
  assert (Hkp : 0 <= k * p) by nia.
  set (n := 2 * (k * p) + t) in *.
  assert (Hdiv : 2 * t * (n / (2 * t)) <= n < 2 * t * (n / (2 * t)) + 2 * t).
  { pose proof (Z.mul_div_le n (2 * t) ltac:(lia)).
    pose proof (Z.mul_succ_div_gt n (2 * t) ltac:(lia)). lia. }
  assert (Hq : 0 <= n / (2 * t)) by (apply Z.div_pos; lia).
  destruct (Z.max_spec 1 (n / (2 * t))) as [[H1 H2]|[H1 H2]]; rewrite H2.
  - nia.
  - assert (n / (2 * t) = 0 \/ n / (2 * t) = 1) as [E|E] by lia;
      rewrite E in *; nia.
Qed.

End Rounding.

(** * Sums over lists *)

Section Sums.

Lemma reduce_from (l : list WheelItem) (a : Z) :
  fold_left (fun sum item => sum + probability item) l a
  = a + Zsum (probabilities l).
Proof.
  revert a. induction l as [|x l IH]; intros a; simpl.
  - lia.
  - rewrite IH. lia.
Qed.

Lemma sum_probability_Zsum (l : list WheelItem) :
  sum_probability l = Zsum (probabilities l).
Proof. unfold sum_probability. rewrite reduce_from. lia. Qed.

Lemma sum_probability_cons (x : WheelItem) (l : list WheelItem) :
  sum_probability (x :: l) = probability x + sum_probability l.
Proof. rewrite !sum_probability_Zsum. reflexivity. Qed.

Lemma Zsum_app (l1 l2 : list Z) : Zsum (l1 ++ l2) = Zsum l1 + Zsum l2.
Proof. induction l1 as [|x l1 IH]; simpl; lia. Qed.

Lemma Zsum_repeat (q : Z) (n : nat) : Zsum (repeat q n) = Z.of_nat n * q.
Proof. induction n as [|n IH]; cbn [Zsum repeat]; lia. Qed.

Lemma Zsum_clamped_lower (l : list Z) :
  Z.of_nat (List.length l) <= Zsum (map (Z.max 1) l).
Proof.
  induction l as [|x l IH]; cbn [Zsum map List.length]; [lia|].
  pose proof (Z.le_max_l 1 x). lia.
Qed.

Lemma Zsum_lower (l : list Z) :
  Forall (fun p => 1 <= p) l -> Z.of_nat (List.length l) <= Zsum l.
Proof.
  induction 1 as [|x l Hx _ IH]; cbn [Zsum List.length]; lia.
Qed.

(** Splitting a sum along a test on the items. *)
Lemma Zsum_partition (g : WheelItem -> Z) (t : WheelItem -> bool)
    (l : list WheelItem) :
  Zsum (map g l)
  = Zsum (map g (filter t l))
    + Zsum (map g (filter (fun x => negb (t x)) l)).
Proof.
  induction l as [|x l IH]; simpl; [reflexivity|].
  destruct (t x); simpl; lia.
Qed.

(** The sum of clamped, rounded shares of [k] among weights [ps], out of
    a total [t], against the exact sum [k * Zsum ps / t]. *)
Lemma shares_sum_bounds (k t : Z) (ps : list Z) :
  0 <= k -> 0 < t -> Forall (fun p => 0 <= p) ps ->
  let ms := map (fun p => Z.max 1 ((2 * (k * p) + t) / (2 * t))) ps in
  2 * (k * Zsum ps) - t * Z.of_nat (List.length ps) <= 2 * t * Zsum ms
  /\ 2 * t * Zsum ms <= 2 * (k * Zsum ps) + 2 * t * Z.of_nat (List.length ps).
Proof.
  intros Hk Ht Hps.
  induction Hps as [|p ps Hp _ IH]; cbn [Zsum map List.length].
  - lia.
  - destruct IH as [IHl IHu].
    pose proof (clamped_share_bounds k p t Hk Hp Ht) as [Hl Hu].
    cbv zeta in Hl, Hu.
    set (m := Z.max 1 ((2 * (k * p) + t) / (2 * t))) in *.
    set (ms := Zsum (map _ ps)) in *.
    rewrite Nat2Z.inj_succ.
    split; nia.
Qed.

(** When the weights add up to the total, the shares add up to [k] give
    or take one unit per item. *)
Lemma shares_of_total (k t : Z) (ps : list Z) :
  0 <= k -> 0 < t -> Forall (fun p => 0 <= p) ps -> Zsum ps = t ->
  let ms := map (fun p => Z.max 1 ((2 * (k * p) + t) / (2 * t))) ps in
  Z.abs (Zsum ms - k) <= Z.of_nat (List.length ps).
Proof.
  intros Hk Ht Hps Hsum ms.
  destruct (shares_sum_bounds k t ps Hk Ht Hps) as [Hl Hu].
  fold ms in Hl, Hu. rewrite Hsum in Hl, Hu.
  set (n := Z.of_nat (List.length ps)) in *.
  assert (0 <= n) by (subst n; lia).
  apply Z.abs_le. split; nia.
Qed.

End Sums.

(** * The normalizer *)

Section Normalizer.

Lemma frame_with_probability (item : WheelItem) (p : Z) :
  frame (with_probability item p) = frame item.
Proof. reflexivity. Qed.

Lemma frame_clamp (item : WheelItem) : frame (clamp item) = frame item.
Proof. reflexivity. Qed.

Lemma frame_id (a b : WheelItem) : frame a = frame b -> id a = id b.
Proof. unfold frame. congruence. Qed.

Lemma frame_is_hidden (a b : WheelItem) :
  frame a = frame b -> is_hidden a = is_hidden b.
Proof. unfold frame, is_hidden. intros H. injection H as _ _ _ ->. reflexivity. Qed.

Lemma clamped_total_positive (l : list WheelItem) :
  l <> [] -> 0 < sum_probability (map clamp l).
Proof.
  intros Hl. rewrite sum_probability_Zsum. unfold probabilities.
  rewrite map_map. cbn [clamp with_probability probability].
  rewrite <- (map_map probability (Z.max 1)).
  pose proof (Zsum_clamped_lower (map probability l)) as H.
  rewrite length_map in H. destruct l; [congruence|].
  cbn [List.length] in H. lia.
Qed.

Lemma clamped_total_zero (l : list WheelItem) :
  sum_probability (map clamp l) = 0 -> l = [].
Proof.
  intros H. destruct l as [|x l]; [reflexivity|].
  pose proof (clamped_total_positive (x :: l) ltac:(discriminate)). lia.
Qed.

(** The proportional mode, with the rounding written on integers. *)
Lemma normalize_proportional (l : list WheelItem) (fixedId : option string) :
  Js.truthy fixedId = None ->
  normalizeProbabilities l fixedId
  = map (fun item =>
           with_probability item
             (share 100 (sum_probability (map clamp l)) (probability item)))
        (map clamp l).
Proof.
  intros Hf. unfold normalizeProbabilities. fold clamp. rewrite Hf.
  destruct (sum_probability (map clamp l) =? 0) eqn:E.
  - apply Z.eqb_eq in E. apply clamped_total_zero in E. subst l. reflexivity.
  - apply Z.eqb_neq in E.
    assert (Ht : 0 < sum_probability (map clamp l)).
    { destruct l; [exfalso; apply E; reflexivity|].
      apply clamped_total_positive. discriminate. }
    apply map_ext. intros item. unfold share.
    rewrite Math_round_share by assumption. reflexivity.
Qed.

(** The pinned mode when the fixed id is absent: only the clamp. *)
Lemma normalize_pinned_absent (l : list WheelItem) (fixedId : option string)
    (fid : string) :
  Js.truthy fixedId = Some fid ->
  Js.find (fun item => id item =? fid)%string (map clamp l) = None ->
  normalizeProbabilities l fixedId = map clamp l.
Proof.
  intros Hf Hfind. unfold normalizeProbabilities. fold clamp.
  rewrite Hf, Hfind. destruct (_ =? 0); reflexivity.
Qed.

(** The pinned mode when the fixed id is present. *)
Lemma normalize_pinned_present (l : list WheelItem) (fixedId : option string)
    (fid : string) (fixedItem : WheelItem) :
  Js.truthy fixedId = Some fid ->
  Js.find (fun item => id item =? fid)%string (map clamp l) = Some fixedItem ->
  let others :=
    filter (fun item => negb (id item =? fid)%string) (map clamp l) in
  normalizeProbabilities l fixedId
  = map (fun item =>
           if (id item =? fid)%string then item
           else with_probability item
                  (share (100 - probability fixedItem)
                         (sum_probability others) (probability item)))
        (map clamp l).
Proof.
  intros Hf Hfind others. unfold normalizeProbabilities. fold clamp.
  rewrite Hf, Hfind. fold others.
  destruct (sum_probability (map clamp l) =? 0) eqn:E.
  - apply Z.eqb_eq in E. apply clamped_total_zero in E. subst l. discriminate.
  - apply map_ext_in. intros item Hin.
    destruct (id item =? fid)%string eqn:Eid; [reflexivity|].
    assert (Ho : 0 < sum_probability others).
    { assert (Hin' : In item others).
      { unfold others. apply filter_In. split; [assumption|].
        rewrite Eid. reflexivity. }
      rewrite sum_probability_Zsum.
      assert (Hall : Forall (fun p => 1 <= p) (probabilities others)).
      { unfold probabilities, others. apply Forall_map, Forall_forall.
        intros x Hx. apply filter_In in Hx as [Hx _].
        apply in_map_iff in Hx as [y [<- _]].
        cbn [clamp with_probability probability]. apply Z.le_max_l. }
      pose proof (Zsum_lower _ Hall) as Hlow.
      unfold probabilities in Hlow. rewrite length_map in Hlow.
      destruct others; [destruct Hin'|]. cbn [List.length] in Hlow.
      unfold probabilities. lia. }
    destruct (sum_probability others =? 0) eqn:E0.
    + apply Z.eqb_eq in E0. lia.
    + unfold share. rewrite Math_round_pinned by assumption. reflexivity.
Qed.

Lemma normalize_frame (l : list WheelItem) (fixedId : option string) :
  map frame (normalizeProbabilities l fixedId) = map frame l.
Proof.
  destruct (Js.truthy fixedId) as [fid|] eqn:Hf.
  - destruct (Js.find (fun item => id item =? fid)%string (map clamp l))
      as [fx|] eqn:Hfind.
    + rewrite (normalize_pinned_present l fixedId fid fx Hf Hfind).
      rewrite !map_map. apply map_ext. intros item.
      destruct (id (clamp item) =? fid)%string; reflexivity.
    + rewrite (normalize_pinned_absent l fixedId fid Hf Hfind).
      rewrite map_map. reflexivity.
  - rewrite (normalize_proportional l fixedId Hf).
    rewrite !map_map. reflexivity.
Qed.

Lemma normalize_positive (l : list WheelItem) (fixedId : option string) :
  Forall (fun item => 1 <= probability item) (normalizeProbabilities l fixedId).
Proof.
  assert (Hc : forall item, 1 <= probability (clamp item)).
  { intros item. cbn. apply Z.le_max_l. }
  destruct (Js.truthy fixedId) as [fid|] eqn:Hf.
  - destruct (Js.find (fun item => id item =? fid)%string (map clamp l))
      as [fx|] eqn:Hfind.
    + rewrite (normalize_pinned_present l fixedId fid fx Hf Hfind).
      rewrite map_map. apply Forall_map, Forall_forall. intros item _.
      destruct (id (clamp item) =? fid)%string; [apply Hc|].
      cbn [with_probability probability]. apply Z.le_max_l.
    + rewrite (normalize_pinned_absent l fixedId fid Hf Hfind).
      apply Forall_map, Forall_forall. intros item _. apply Hc.
  - rewrite (normalize_proportional l fixedId Hf).
    rewrite map_map. apply Forall_map, Forall_forall. intros item _.
    cbn [with_probability probability]. apply Z.le_max_l.
Qed.

End Normalizer.

(** * Tolerance of the normalizer *)

Section Tolerance.

Lemma probabilities_clamp (l : list WheelItem) :
  probabilities (map clamp l) = map (Z.max 1) (probabilities l).
Proof. unfold probabilities. rewrite !map_map. reflexivity. Qed.

Lemma clamped_nonnegative (l : list WheelItem) :
  Forall (fun p => 0 <= p) (probabilities (map clamp l)).
Proof.
  rewrite probabilities_clamp. apply Forall_map, Forall_forall.
  intros p _. pose proof (Z.le_max_l 1 p). lia.
Qed.

(** Proportional mode: the weights add up to 100 give or take one unit per
    item. *)
Lemma proportional_tolerance (l : list WheelItem) (fixedId : option string) :
  Js.truthy fixedId = None -> l <> [] ->
  Z.abs (sum_probability (normalizeProbabilities l fixedId) - 100)
  <= Z.of_nat (List.length l).
Proof.
  intros Hf Hl. rewrite (normalize_proportional l fixedId Hf).
  rewrite sum_probability_Zsum. unfold probabilities at 1. rewrite map_map.
  cbn [with_probability probability].
  rewrite <- (map_map probability (share 100 _)).
  fold (probabilities (map clamp l)).
  replace (List.length l) with (List.length (probabilities (map clamp l)))
    by (unfold probabilities; rewrite !length_map; reflexivity).
  apply (shares_of_total 100).
  - lia.
  - apply clamped_total_positive. assumption.
  - apply clamped_nonnegative.
  - symmetry. apply sum_probability_Zsum.
Qed.

Lemma filter_none {A} (f : A -> bool) (l : list A) :
  (forall x, In x l -> f x = false) -> filter f l = [].
Proof.
  induction l as [|y l IH]; intros H; cbn [filter]; [reflexivity|].
  rewrite (H y (or_introl eq_refl)). apply IH.
  intros x Hx. apply H. right. assumption.
Qed.

Lemma find_unique (fid : string) (l : list WheelItem) (x : WheelItem) :
  NoDup (ids l) ->
  Js.find (fun item => id item =? fid)%string l = Some x ->
  filter (fun item => id item =? fid)%string l = [x].
Proof.
  unfold Js.find, ids. induction l as [|y l IH]; intros Hnd Hfind.
  - discriminate.
  - cbn [List.find filter map] in *. inversion Hnd as [|? ? Hy Hnd']; subst.
    destruct (id y =? fid)%string eqn:E.
    + injection Hfind as <-. f_equal.
      apply String.eqb_eq in E.
      apply filter_none. intros z Hz.
      destruct (id z =? fid)%string eqn:Ez; [|reflexivity].
      apply String.eqb_eq in Ez. exfalso. apply Hy.
      rewrite E, <- Ez. apply in_map. assumption.
    + apply IH; assumption.
Qed.

(** Pinned mode on a list with unique ids that holds the fixed item and at
    least one other: the fixed weight is kept and the others make up
    for it, give or take one unit each. *)
Lemma pinned_tolerance (l : list WheelItem) (fixedId : option string)
    (fid : string) (fixedItem : WheelItem) :
  Js.truthy fixedId = Some fid ->
  Js.find (fun item => id item =? fid)%string (map clamp l) = Some fixedItem ->
  NoDup (ids l) -> (2 <= List.length l)%nat ->
  probability fixedItem <= 100 ->
  Z.abs (sum_probability (normalizeProbabilities l fixedId) - 100)
  <= Z.of_nat (List.length l) - 1.
Proof.
  intros Hf Hfind Hnd Hlen Hfx.
  rewrite (normalize_pinned_present l fixedId fid fixedItem Hf Hfind).
  set (others := filter (fun item => negb (id item =? fid)%string) (map clamp l)).
  set (r := 100 - probability fixedItem).
  set (t := sum_probability others).
  rewrite sum_probability_Zsum. unfold probabilities at 1. rewrite map_map.
  rewrite (Zsum_partition _ (fun item => id item =? fid)%string).
  assert (Hnd' : NoDup (ids (map clamp l))).
  { unfold ids. rewrite map_map. exact Hnd. }
  rewrite (find_unique fid _ fixedItem Hnd' Hfind). fold others.
  assert (Hfid : (id fixedItem =? fid)%string = true).
  { apply find_some in Hfind. apply Hfind. }
  cbn [map Zsum]. rewrite Hfid.
  assert (Hmap : map (fun x => probability
                     (if (id x =? fid)%string then x
                      else with_probability x (share r t (probability x))))
                   others
                 = map (share r t) (probabilities others)).
  { unfold probabilities. rewrite map_map. apply map_ext_in.
    intros x Hx. apply filter_In in Hx as [_ Hx].
    destruct (id x =? fid)%string; [discriminate|reflexivity]. }
  rewrite Hmap.
  assert (Hcount : (List.length others + 1 = List.length l)%nat).
  { pose proof (filter_length (fun item => id item =? fid)%string (map clamp l)) as H.
    rewrite (find_unique fid _ fixedItem Hnd' Hfind) in H. fold others in H.
    rewrite length_map in H. cbn [List.length] in H. lia. }
  assert (Hall : Forall (fun p => 1 <= p) (probabilities others)).
  { unfold probabilities, others. apply Forall_map, Forall_forall.
    intros x Hx. apply filter_In in Hx as [Hx _].
    apply in_map_iff in Hx as [y [<- _]].
    cbn [clamp with_probability probability]. apply Z.le_max_l. }
  assert (Ht : 0 < t).
  { pose proof (Zsum_lower _ Hall) as Hlow.
    unfold probabilities in Hlow. rewrite length_map in Hlow.
    unfold t. rewrite sum_probability_Zsum. unfold probabilities. lia. }
  pose proof (shares_of_total r t (probabilities others)) as Hs.
  cbv zeta in Hs. fold (share r t) in Hs.
  assert (Hr : 0 <= r) by (unfold r; lia).
  specialize (Hs Hr Ht).
  assert (Hnn : Forall (fun p => 0 <= p) (probabilities others)).
  { eapply Forall_impl; [|exact Hall]. cbv beta. intros; lia. }
  specialize (Hs Hnn (eq_sym (sum_probability_Zsum others))).
  unfold probabilities in Hs at 2. rewrite length_map in Hs.
  unfold r in *. lia.
Qed.

End Tolerance.

(** * Equal shares *)

Section EqualShare.

Lemma mapi_from_frame (f : WheelItem -> nat -> Z) (l : list WheelItem) (i : nat) :
  map frame (Js.mapi_from i (fun item index => with_probability item (f item index)) l)
  = map frame l.
Proof.
  revert i. induction l as [|x l IH]; intros i; cbn [Js.mapi_from map].
  - reflexivity.
  - rewrite IH. reflexivity.
Qed.

Lemma calculateEqualShare_frame (v : list WheelItem) :
  map frame (calculateEqualShare v) = map frame v.
Proof. unfold calculateEqualShare, Js.mapi. apply mapi_from_frame. Qed.

(** All positions get [b] but the last one, which gets [a]. *)
Lemma mapi_from_last (a b n : Z) (l : list WheelItem) (i : nat) :
  l <> [] -> Z.of_nat (i + List.length l) = n ->
  probabilities
    (Js.mapi_from i
       (fun item index =>
          with_probability item (if Z.of_nat index =? n - 1 then a else b)) l)
  = repeat b (List.length l - 1) ++ [a].
Proof.
  revert i. induction l as [|x l IH]; intros i Hl Hn; [congruence|].
  cbn [Js.mapi_from probabilities map with_probability probability].
  destruct l as [|y l].
  - cbn [List.length] in Hn.
    replace (Z.of_nat i =? n - 1) with true by (symmetry; apply Z.eqb_eq; lia).
    reflexivity.
  - cbn [List.length] in Hn.
    replace (Z.of_nat i =? n - 1) with false by (symmetry; apply Z.eqb_neq; lia).
    specialize (IH (S i) ltac:(discriminate)).
    cbn [List.length] in IH. unfold probabilities in IH.
    rewrite IH by lia.
    cbn [List.length]. replace (S (S (List.length l)) - 1)%nat
      with (S (S (List.length l) - 1)) by lia.
    reflexivity.
Qed.

Lemma calculateEqualShare_probabilities (v : list WheelItem) :
  v <> [] ->
  let n := Z.of_nat (List.length v) in
  probabilities (calculateEqualShare v)
  = repeat (100 / n) (List.length v - 1) ++ [100 - (100 / n) * (n - 1)].
Proof.
  intros Hv n. unfold calculateEqualShare, Js.mapi. fold n.
  rewrite Math_floor_div_Z. apply mapi_from_last; [assumption|reflexivity].
Qed.

Lemma calculateEqualShare_sum (v : list WheelItem) :
  v <> [] -> sum_probability (calculateEqualShare v) = 100.
Proof.
  intros Hv. rewrite sum_probability_Zsum.
  rewrite (calculateEqualShare_probabilities v Hv). cbv zeta.
  rewrite Zsum_app, Zsum_repeat. cbn [Zsum].
  destruct v; [congruence|]. cbn [List.length].
  rewrite Nat2Z.inj_sub by lia. lia.
Qed.

Lemma calculateEqualShare_nonnegative (v : list WheelItem) :
  Forall (fun p => 0 <= p) (probabilities (calculateEqualShare v)).
Proof.
  destruct v as [|x v]; [constructor|].
  rewrite calculateEqualShare_probabilities by discriminate. cbv zeta.
  set (n := Z.of_nat (List.length (x :: v))).
  assert (Hn : 0 < n) by (unfold n; cbn [List.length]; lia).
  assert (Hq : 0 <= 100 / n) by (apply Z.div_pos; lia).
  pose proof (Z.mul_div_le 100 n Hn) as Hle.
  apply Forall_app. split.
  - apply Forall_forall. intros p Hp. apply repeat_spec in Hp. lia.
  - constructor; [nia|constructor].
Qed.

(** Up to 100 visible items every equal share is at least 1. *)
Lemma calculateEqualShare_positive (v : list WheelItem) :
  (List.length v <= 100)%nat ->
  Forall (fun p => 1 <= p) (probabilities (calculateEqualShare v)).
Proof.
  intros Hlen. destruct v as [|x v]; [constructor|].
  rewrite calculateEqualShare_probabilities by discriminate. cbv zeta.
  set (n := Z.of_nat (List.length (x :: v))) in *.
  assert (Hn : 0 < n <= 100) by (unfold n; cbn [List.length] in *; lia).
  assert (Hq : 1 <= 100 / n).
  { apply Z.div_le_lower_bound; lia. }
  pose proof (Z.mul_div_le 100 n ltac:(lia)) as Hle.
  apply Forall_app. split.
  - apply Forall_forall. intros p Hp. apply repeat_spec in Hp. lia.
  - constructor; [nia|constructor].
Qed.

(** Merging the equalized visible items back, for unique ids: the items keep
    their frame, the visible ones are the equalized ones in order, the
    hidden ones are the same objects as before. *)
Lemma merge_visible_skip (y : WheelItem) (nv u : list WheelItem) :
  ~ In (id y) (ids u) -> merge_visible (y :: nv) u = merge_visible nv u.
Proof.
  intros Hy. unfold merge_visible. apply map_ext_in. intros z Hz.
  destruct (is_hidden z); [reflexivity|].
  unfold Js.find. cbn [List.find].
  destruct (id y =? id z)%string eqn:E; [|reflexivity].
  apply String.eqb_eq in E. exfalso. apply Hy. rewrite E.
  apply in_map. assumption.
Qed.

Lemma merge_visible_spec (u nv : list WheelItem) :
  NoDup (ids u) ->
  map frame nv = map frame (getVisibleItems u) ->
  map frame (merge_visible nv u) = map frame u
  /\ getVisibleItems (merge_visible nv u) = nv
  /\ filter is_hidden (merge_visible nv u) = filter is_hidden u.
Proof.
  revert nv. induction u as [|x u IH]; intros nv Hnd Hfr.
  - destruct nv; [|discriminate]. repeat split.
  - inversion Hnd as [|? ? Hx Hnd']; subst.
    change (merge_visible nv (x :: u))
      with ((if is_hidden x then x
             else match Js.find (fun ni => (id ni =? id x)%string) nv with
                  | Some ni => ni
                  | None => x
                  end) :: merge_visible nv u).
    unfold getVisibleItems in *. cbn [map filter] in *.
    destruct (is_hidden x) eqn:Ehx; cbn [negb] in *.
    + destruct (IH nv Hnd' Hfr) as (H1 & H2 & H3).
      rewrite Ehx. cbn [negb]. rewrite H1, H2, H3. repeat split.
    + destruct nv as [|y nv]; [discriminate|]. cbn [map] in Hfr.
      pose proof (f_equal (hd (frame x)) Hfr) as Hy.
      apply (f_equal (@tl _)) in Hfr. cbn [hd tl] in Hy, Hfr.
      unfold Js.find. cbn [List.find].
      rewrite (frame_id _ _ Hy), String.eqb_refl.
      rewrite merge_visible_skip by (rewrite (frame_id _ _ Hy); exact Hx).
      destruct (IH nv Hnd' Hfr) as (H1 & H2 & H3).
      rewrite (frame_is_hidden _ _ Hy), Ehx. cbn [negb].
      rewrite H1, H2, H3, Hy. repeat split.
Qed.

Lemma merge_visible_ids (u nv : list WheelItem) :
  ids (merge_visible nv u) = ids u.
Proof.
  unfold ids, merge_visible. rewrite map_map. apply map_ext. intros x.
  destruct (is_hidden x); [reflexivity|].
  destruct (Js.find _ nv) as [ni|] eqn:E; [|reflexivity].
  apply find_some in E as [_ E]. apply String.eqb_eq. assumption.
Qed.

(** Equalizing the visible items of a list with unique ids. *)
Lemma equalize_spec (u : list WheelItem) :
  NoDup (ids u) ->
  let r := merge_visible (calculateEqualShare (getVisibleItems u)) u in
  map frame r = map frame u
  /\ getVisibleItems r = calculateEqualShare (getVisibleItems u)
  /\ filter is_hidden r = filter is_hidden u.
Proof.
  intros Hnd r. apply merge_visible_spec; [assumption|].
  apply calculateEqualShare_frame.
Qed.

End EqualShare.

(** * The collection under sequences of operations *)

Section Frames.

Lemma ids_of_frame (a b : list WheelItem) :
  map frame a = map frame b -> ids a = ids b.
Proof.
  intros H. unfold ids.
  change (map id a) with (map (fun x => fst (fst (fst (frame x)))) a).
  change (map id b) with (map (fun x => fst (fst (fst (frame x)))) b).
  rewrite <- !(map_map frame (fun f => fst (fst (fst f)))). rewrite H. reflexivity.
Qed.

Lemma hidden_of_frame (a b : list WheelItem) :
  map frame a = map frame b -> map is_hidden a = map is_hidden b.
Proof.
  intros H.
  assert (E : forall l, map is_hidden l
              = map (fun f => match snd f with Some h => h | None => false end)
                    (map frame l)).
  { intros l. rewrite map_map. reflexivity. }
  rewrite !E, H. reflexivity.
Qed.

Lemma length_of_frame (a b : list WheelItem) :
  map frame a = map frame b -> List.length a = List.length b.
Proof. intros H. apply (f_equal (@List.length _)) in H. rewrite !length_map in H. exact H. Qed.

Lemma no_hidden_map (l : list WheelItem) :
  no_hidden l = forallb negb (map is_hidden l).
Proof. unfold no_hidden. induction l as [|x l IH]; cbn; [|rewrite IH]; reflexivity. Qed.

Lemma no_hidden_of_frame (a b : list WheelItem) :
  map frame a = map frame b -> no_hidden a = no_hidden b.
Proof. intros H. rewrite !no_hidden_map, (hidden_of_frame a b H). reflexivity. Qed.

Lemma no_hidden_visible (l : list WheelItem) :
  no_hidden l = true -> getVisibleItems l = l.
Proof.
  unfold no_hidden, getVisibleItems. induction l as [|x l IH]; cbn; [reflexivity|].
  intros H. apply andb_true_iff in H as [Hx Hl]. rewrite Hx, IH by assumption.
  reflexivity.
Qed.

Lemma ids_normalize (l : list WheelItem) (fixedId : option string) :
  ids (normalizeProbabilities l fixedId) = ids l.
Proof. apply ids_of_frame, normalize_frame. Qed.

Lemma length_normalize (l : list WheelItem) (fixedId : option string) :
  List.length (normalizeProbabilities l fixedId) = List.length l.
Proof. apply length_of_frame, normalize_frame. Qed.

Lemma positive_clamped_sum (l : list WheelItem) :
  Forall (fun item => 1 <= probability item) l ->
  clamped_sum l = sum_probability l.
Proof.
  intros H. rewrite sum_probability_Zsum. unfold clamped_sum, probabilities.
  induction H as [|x l Hx _ IH]; cbn [map Zsum]; [reflexivity|].
  rewrite IH, Z.max_r by assumption. reflexivity.
Qed.

Lemma nonnegative_clamped_sum (ps : list Z) :
  Forall (fun p => 0 <= p) ps ->
  Zsum ps <= Zsum (map (Z.max 1) ps) <= Zsum ps + Z.of_nat (List.length ps).
Proof.
  induction 1 as [|p ps Hp _ IH]; cbn [map Zsum List.length]; [lia|].
  rewrite Nat2Z.inj_succ.
  destruct (Z.max_spec 1 p) as [[? ->]|[? ->]]; lia.
Qed.

Lemma NoDup_snoc {A} (l : list A) (a : A) :
  NoDup l -> ~ In a l -> NoDup (l ++ [a]).
Proof.
  induction 1 as [|x l Hx Hnd IH]; intros Ha; cbn [app].
  - constructor; [intros []|constructor].
  - constructor.
    + rewrite in_app_iff. intros [H|[H|[]]]; [tauto|].
      apply Ha. left. congruence.
    + apply IH. intros H. apply Ha. right. assumption.
Qed.

Lemma id_in_spec (i : string) (l : list WheelItem) :
  id_in i l = true <-> In i (ids l).
Proof.
  unfold id_in, ids. rewrite existsb_exists, in_map_iff. split.
  - intros [x [Hx E]]. exists x. apply String.eqb_eq in E. tauto.
  - intros [x [E Hx]]. exists x. split; [assumption|]. apply String.eqb_eq. assumption.
Qed.

Lemma ids_filter_NoDup (f : WheelItem -> bool) (l : list WheelItem) :
  NoDup (ids l) -> NoDup (ids (filter f l)).
Proof.
  unfold ids. induction l as [|x l IH]; intros H; cbn [filter map] in *.
  - constructor.
  - inversion H as [|? ? Hx Hl]; subst. destruct (f x); cbn [map].
    + constructor; [|apply IH; assumption].
      intros Hin. apply Hx. apply in_map_iff in Hin as [y [E Hy]].
      apply filter_In in Hy as [Hy _]. rewrite <- E. apply in_map. assumption.
    + apply IH. assumption.
Qed.

(** With unique ids, removing an id takes away at most one item. *)
Lemma remove_id_length (rid : string) (l : list WheelItem) :
  NoDup (ids l) ->
  (List.length l
   <= S (List.length (filter (fun item => negb (id item =? rid)%string) l)))%nat.
Proof.
  unfold ids. induction l as [|x l IH]; intros H; cbn [filter map List.length] in *.
  - lia.
  - inversion H as [|? ? Hx Hl]; subst.
    destruct (id x =? rid)%string eqn:E; cbn [negb List.length].
    + apply String.eqb_eq in E.
      assert (Hall : filter (fun item => negb (id item =? rid)%string) l = l).
      { apply forallb_filter_id. apply forallb_forall. intros z Hz.
        destruct (id z =? rid)%string eqn:Ez; [|reflexivity].
        apply String.eqb_eq in Ez. exfalso. apply Hx. rewrite E, <- Ez.
        apply in_map. assumption. }
      rewrite Hall. lia.
    + specialize (IH Hl). lia.
Qed.

End Frames.

Section Steps.

(** After an equalization that leaves nothing hidden, the weights are the
    equal shares themselves. *)
Lemma equalized_all_visible (u : list WheelItem) :
  NoDup (ids u) -> (2 <= List.length u)%nat ->
  let r := merge_visible (calculateEqualShare (getVisibleItems u)) u in
  no_hidden r = true ->
  Z.abs (sum_probability r - 100) <= Z.of_nat (List.length r)
  /\ Z.abs (clamped_sum r - 100) <= Z.of_nat (List.length r).
Proof.
  intros Hnd Hlen r Hvis.
  destruct (equalize_spec u Hnd) as (Hfr & Hv & _). fold r in Hfr, Hv.
  rewrite (no_hidden_visible r Hvis) in Hv.
  assert (Hu : getVisibleItems u = u).
  { apply no_hidden_visible. rewrite <- (no_hidden_of_frame r u Hfr). exact Hvis. }
  rewrite Hu in Hv.
  assert (Hne : u <> []) by (destruct u; [cbn in Hlen; lia|discriminate]).
  pose proof (calculateEqualShare_sum u Hne) as Hsum.
  pose proof (nonnegative_clamped_sum _ (calculateEqualShare_nonnegative u)) as Hc.
  rewrite <- sum_probability_Zsum, Hsum in Hc.
  assert (Hl : List.length (probabilities (calculateEqualShare u))
               = List.length (calculateEqualShare u))
    by (unfold probabilities; apply length_map).
  rewrite Hl in Hc.
  rewrite Hv. unfold clamped_sum. rewrite Hsum. lia.
Qed.

Lemma invariant_equalize (u : list WheelItem) :
  NoDup (ids u) -> (2 <= List.length u)%nat ->
  invariant (merge_visible (calculateEqualShare (getVisibleItems u)) u).
Proof.
  intros Hnd Hlen. constructor.
  - rewrite merge_visible_ids. assumption.
  - unfold merge_visible. rewrite length_map. assumption.
  - apply equalized_all_visible; assumption.
Qed.

Lemma invariant_removeItem (rid : string) (s : list WheelItem) :
  invariant s -> invariant (removeItem rid s).
Proof.
  intros Hs. unfold removeItem.
  destruct (List.length s <=? 2)%nat eqn:E; [assumption|].
  apply Nat.leb_gt in E. apply invariant_equalize.
  - apply ids_filter_NoDup, Hs.
  - pose proof (remove_id_length rid s (unique_ids s Hs)). lia.
Qed.

Lemma invariant_toggleItemVisibility (tid : string) (s : list WheelItem) :
  invariant s -> invariant (toggleItemVisibility tid s).
Proof.
  intros Hs. unfold toggleItemVisibility. apply invariant_equalize.
  - unfold ids. rewrite map_map.
    rewrite (map_ext _ id); [apply Hs|].
    intros x. destruct (id x =? tid)%string; reflexivity.
  - rewrite length_map. apply Hs.
Qed.

Lemma invariant_normalized (l : list WheelItem) (fixedId : option string) :
  NoDup (ids l) -> (2 <= List.length l)%nat ->
  (no_hidden l = true ->
   Z.abs (sum_probability (normalizeProbabilities l fixedId) - 100)
   <= Z.of_nat (List.length l)) ->
  invariant (normalizeProbabilities l fixedId).
Proof.
  intros Hnd Hlen Hsum. constructor.
  - rewrite ids_normalize. assumption.
  - rewrite length_normalize. assumption.
  - intros Hvis.
    rewrite (no_hidden_of_frame _ _ (normalize_frame l fixedId)) in Hvis.
    rewrite (positive_clamped_sum _ (normalize_positive l fixedId)).
    rewrite length_normalize. split; apply Hsum; assumption.
Qed.

Lemma invariant_addItem (newItemLabel now : string) (s : list WheelItem) :
  invariant s -> id_in now s = false ->
  invariant (addItem newItemLabel now s).
Proof.
  intros Hs Hfresh. unfold addItem.
  destruct (Js.trims_to_empty newItemLabel); [assumption|].
  apply invariant_normalized.
  - unfold ids. rewrite map_app. apply NoDup_snoc; [apply Hs|].
    cbn [map id]. intros Hin. apply id_in_spec in Hin. congruence.
  - rewrite length_app. cbn [List.length].
    pose proof (at_least_two s Hs). lia.
  - intros _. apply proportional_tolerance; [reflexivity|].
    destruct s; discriminate.
Qed.

Lemma with_new_value_frame (uid : string) (v : Z) (s : list WheelItem) :
  map frame (with_new_value uid v s) = map frame s.
Proof.
  unfold with_new_value. rewrite map_map. apply map_ext. intros x.
  destruct (id x =? uid)%string; reflexivity.
Qed.

Lemma invariant_updateProbability (uid : string) (value : Z) (s : list WheelItem) :
  invariant s -> invariant (updateProbability uid value s).
Proof.
  intros Hs. unfold updateProbability.
  set (newValue := Z.max 1 (Z.min 99 value)).
  fold (with_new_value uid newValue s).
  pose proof (with_new_value_frame uid newValue s) as Hfr.
  assert (Hnd : NoDup (ids (with_new_value uid newValue s))).
  { rewrite (ids_of_frame _ _ Hfr). apply Hs. }
  assert (Hlen : (2 <= List.length (with_new_value uid newValue s))%nat).
  { rewrite (length_of_frame _ _ Hfr). apply Hs. }
  apply invariant_normalized; [assumption|assumption|].
  intros Hvis.
  destruct (Js.truthy (Some uid)) as [fid|] eqn:Hf.
  - assert (fid = uid) as ->.
    { cbn in Hf. destruct (Js.truthy_string uid); congruence. }
    destruct (Js.find (fun item => id item =? uid)%string
                (map clamp (with_new_value uid newValue s))) as [fx|] eqn:Hfind.
    + pose proof (pinned_tolerance _ _ uid fx Hf Hfind Hnd Hlen) as Hp.
      assert (Hfx : probability fx <= 100).
      { apply find_some in Hfind as [Hin Hid].
        apply in_map_iff in Hin as [y [<- Hy]].
        unfold with_new_value in Hy.
        apply in_map_iff in Hy as [x [<- Hx]].
        cbn [clamp with_probability id] in Hid.
        destruct (id x =? uid)%string eqn:E.
        - cbn [clamp with_probability probability]. unfold newValue. lia.
        - cbn [with_probability id] in Hid. congruence. }
      specialize (Hp Hfx). lia.
    + rewrite (normalize_pinned_absent _ _ uid Hf Hfind).
      assert (Hsame : with_new_value uid newValue s = s).
      { unfold with_new_value. rewrite <- (map_id s) at 2.
        apply map_ext_in. intros x Hx.
        destruct (id x =? uid)%string eqn:E; [|reflexivity].
        exfalso.
        pose proof (find_none _ _ Hfind
                      (clamp (with_probability x newValue))) as Hn.
        cbn [clamp with_probability id] in Hn. rewrite E in Hn.
        assert (Hin : In (clamp (with_probability x newValue))
                         (map clamp (with_new_value uid newValue s))).
        { apply in_map. unfold with_new_value. apply in_map_iff.
          exists x. rewrite E. split; [reflexivity|assumption]. }
        specialize (Hn Hin). discriminate. }
      rewrite Hsame in *.
      rewrite sum_probability_Zsum, probabilities_clamp.
      apply (all_visible_tolerance s Hs Hvis).
  - apply proportional_tolerance; [assumption|].
    intros E. rewrite E in Hlen. cbn in Hlen. lia.
Qed.

Lemma invariant_saveItemLabel (eid l : string) (s : list WheelItem) :
  invariant s -> invariant (saveItemLabel eid l s).
Proof.
  intros Hs. unfold saveItemLabel.
  destruct (Js.truthy_string eid); [|assumption].
  set (s' := map _ s).
  assert (Hi : ids s' = ids s).
  { unfold ids, s'. rewrite map_map. apply map_ext. intros x.
    destruct (id x =? eid)%string; reflexivity. }
  assert (Hp : probabilities s' = probabilities s).
  { unfold probabilities, s'. rewrite map_map. apply map_ext. intros x.
    destruct (id x =? eid)%string; reflexivity. }
  assert (Hh : no_hidden s' = no_hidden s).
  { rewrite !no_hidden_map. f_equal. unfold s'. rewrite map_map.
    apply map_ext. intros x. destruct (id x =? eid)%string; reflexivity. }
  assert (Hl : List.length s' = List.length s) by (unfold s'; apply length_map).
  constructor.
  - rewrite Hi. apply Hs.
  - rewrite Hl. apply Hs.
  - rewrite Hh, Hl. unfold clamped_sum. rewrite sum_probability_Zsum, Hp.
    rewrite <- sum_probability_Zsum. apply Hs.
Qed.

Lemma invariant_initial : invariant initial_items.
Proof.
  constructor.
  - cbn. repeat constructor; cbn; intuition discriminate.
  - cbn. lia.
  - intros _. vm_compute. split; discriminate.
Qed.

Lemma invariant_run (ops : list operation) (s : list WheelItem) :
  invariant s -> fresh_stamps ops s = true -> invariant (run ops s).
Proof.
  revert s. induction ops as [|o ops IH]; intros s Hs Hfresh; cbn [run].
  - assumption.
  - cbn [fresh_stamps] in Hfresh. apply andb_true_iff in Hfresh as [Ho Hrest].
    apply IH; [|assumption].
    destruct o; cbn [apply_operation].
    + apply invariant_addItem; [assumption|].
      apply negb_true_iff. assumption.
    + apply invariant_removeItem; assumption.
    + apply invariant_updateProbability; assumption.
    + apply invariant_toggleItemVisibility; assumption.
    + apply invariant_saveItemLabel; assumption.
Qed.

(** Weights stay at least 1 through an operation that leaves at most 100
    segments visible. *)
Lemma equalized_positive (u : list WheelItem) :
  NoDup (ids u) ->
  Forall (fun item => 1 <= probability item) u ->
  (visible_count (merge_visible (calculateEqualShare (getVisibleItems u)) u)
   <= 100)%nat ->
  Forall (fun item => 1 <= probability item)
         (merge_visible (calculateEqualShare (getVisibleItems u)) u).
Proof.
  intros Hnd Hpos Hcount.
  destruct (equalize_spec u Hnd) as (_ & Hv & Hh).
  set (r := merge_visible (calculateEqualShare (getVisibleItems u)) u) in *.
  assert (Hlen : (List.length (getVisibleItems u) <= 100)%nat).
  { unfold visible_count in Hcount. rewrite Hv in Hcount.
    rewrite (length_of_frame _ _ (calculateEqualShare_frame _)) in Hcount.
    exact Hcount. }
  pose proof (calculateEqualShare_positive _ Hlen) as Hshares.
  unfold probabilities in Hshares. rewrite Forall_map in Hshares.
  rewrite <- Hv in Hshares.
  apply Forall_forall. intros x Hx.
  destruct (is_hidden x) eqn:E.
  - assert (Hin : In x (filter is_hidden r)) by (apply filter_In; tauto).
    rewrite Hh in Hin. apply filter_In in Hin as [Hin _].
    rewrite Forall_forall in Hpos. apply Hpos. exact Hin.
  - rewrite Forall_forall in Hshares. apply Hshares.
    unfold getVisibleItems. apply filter_In. rewrite E. tauto.
Qed.

Lemma positive_step (o : operation) (s : list WheelItem) :
  NoDup (ids s) ->
  Forall (fun item => 1 <= probability item) s ->
  (visible_count (apply_operation o s) <= 100)%nat ->
  Forall (fun item => 1 <= probability item) (apply_operation o s).
Proof.
  intros Hnd Hpos. destruct o; cbn [apply_operation].
  - intros _. unfold addItem.
    destruct (Js.trims_to_empty newItemLabel); [assumption|].
    apply normalize_positive.
  - unfold removeItem. destruct (List.length s <=? 2)%nat; [intros _; assumption|].
    apply equalized_positive.
    + apply ids_filter_NoDup. assumption.
    + apply Forall_forall. intros x Hx. apply filter_In in Hx as [Hx _].
      rewrite Forall_forall in Hpos. apply Hpos. exact Hx.
  - intros _. apply normalize_positive.
  - unfold toggleItemVisibility. apply equalized_positive.
    + unfold ids. rewrite map_map.
      rewrite (map_ext _ id); [assumption|].
      intros x. destruct (id x =? tid)%string; reflexivity.
    + apply Forall_map. eapply Forall_impl; [|exact Hpos]. cbv beta.
      intros x Hx. destruct (id x =? tid)%string; exact Hx.
  - intros _. unfold saveItemLabel.
    destruct (Js.truthy_string editingItemId); [|assumption].
    apply Forall_map. eapply Forall_impl; [|exact Hpos]. cbv beta.
    intros x Hx. destruct (id x =? editingItemId)%string; exact Hx.
Qed.

End Steps.

(** * Winner resolution *)

Section Resolver.

Lemma Qle_bool_true x y : Qle_bool x y = true <-> (x <= y)%Q.
Proof. apply Qle_bool_iff. Qed.

Lemma Qlt_bool_true x y : Js.Qlt_bool x y = true <-> (x < y)%Q.
Proof.
  unfold Js.Qlt_bool. rewrite negb_true_iff. split.
  - intros H. apply Qnot_le_lt. intros Hle. apply Qle_bool_iff in Hle. congruence.
  - intros H. destruct (Qle_bool y x) eqn:E; [|reflexivity].
    apply Qle_bool_iff in E. exfalso. apply (Qlt_not_le _ _ H E).
Qed.

Lemma rem_bounds (x : Q) :
  let r := Js.rem x 360 in
  (-360 < r)%Q /\ (r < 360)%Q /\ ((0 <= x)%Q -> (0 <= r)%Q)
  /\ exists k : Z, (x == r + 360 * inject_Z k)%Q.
Proof.
  intros r. unfold r, Js.rem, Js.Qtrunc.
  destruct (Qle_bool 0 (x / 360)) eqn:E.
  - apply Qle_bool_iff in E.
    pose proof (Qfloor_le (x / 360)) as Hl.
    pose proof (Qlt_floor (x / 360)) as Hu.
    rewrite inject_Z_plus in Hu. change (inject_Z 1) with 1%Q in Hu.
    set (k := inject_Z (Qfloor (x / 360))) in *.
    assert (Hx : (x == 360 * (x / 360))%Q) by (field).
    repeat split.
    + lra.
    + lra.
    + intros _. lra.
    + exists (Qfloor (x / 360)). fold k. lra.
  - assert (Hneg : (x / 360 < 0)%Q).
    { apply Qnot_le_lt. intros H. apply Qle_bool_iff in H. congruence. }
    pose proof (Qle_ceiling (x / 360)) as Hl.
    pose proof (Qceiling_lt (x / 360)) as Hu.
    unfold Z.sub in Hu. rewrite inject_Z_plus, inject_Z_opp in Hu. change (inject_Z 1) with 1%Q in Hu.
    set (k := inject_Z (Qceiling (x / 360))) in *.
    assert (Hx : (x == 360 * (x / 360))%Q) by (field).
    repeat split.
    + lra.
    + lra.
    + intros H0. lra.
    + exists (Qceiling (x / 360)). fold k. lra.
Qed.

Lemma sliceAngle_arc_width item : (sliceAngle item == Spec.arc_width item)%Q.
Proof. unfold sliceAngle, Spec.arc_width. field. Qed.

Lemma in_slice_true theta cur item :
  in_slice theta cur item = true
  <-> (cur <= theta)%Q /\ (theta < cur + Spec.arc_width item)%Q.
Proof.
  unfold in_slice. rewrite andb_true_iff, Qle_bool_true, Qlt_bool_true.
  pose proof (sliceAngle_arc_width item). split; intros [H1 H2]; split; lra.
Qed.

Lemma arc_width_scaled x : (Spec.arc_width x == inject_Z (probability x) * (18 # 5))%Q.
Proof. unfold Spec.arc_width. field. Qed.

Lemma arc_width_nonneg x : 0 <= probability x -> (0 <= Spec.arc_width x)%Q.
Proof.
  intros Hx. pose proof (arc_width_scaled x) as E.
  assert ((0 <= inject_Z (probability x))%Q).
  { change 0%Q with (inject_Z 0). rewrite <- Zle_Qle. assumption. }
  lra.
Qed.

Lemma cumulative_start_nonneg l i :
  Forall (fun item => 0 <= probability item) l -> (0 <= Spec.cumulative_start l i)%Q.
Proof.
  intros H. revert i.
  induction H as [|x l Hx _ IH]; intros [|k]; cbn [Spec.cumulative_start]; try lra.
  specialize (IH k). pose proof (arc_width_nonneg x Hx). lra.
Qed.

Lemma winner_loop_some l : forall cur theta w,
  winner_loop theta cur l = Some w ->
  exists i, nth_error l i = Some w /\ in_arc_from cur l i theta.
Proof.
  induction l as [|x l IH]; intros cur theta w H; cbn [winner_loop] in H.
  - discriminate.
  - destruct (in_slice theta cur x) eqn:E.
    + injection H as <-. exists 0%nat. split; [reflexivity|].
      apply in_slice_true in E. unfold in_arc_from. cbn. lra.
    + apply IH in H as [i [Hi Harc]]. exists (S i). split; [exact Hi|].
      unfold in_arc_from in *. cbn [nth_error Spec.cumulative_start].
      rewrite Hi in *. pose proof (sliceAngle_arc_width x). lra.
Qed.

Lemma winner_loop_hit l : forall cur theta i,
  Forall (fun item => 0 <= probability item) l ->
  in_arc_from cur l i theta ->
  exists w, nth_error l i = Some w /\ winner_loop theta cur l = Some w.
Proof.
  induction l as [|x l IH]; intros cur theta i Hpos Harc.
  - unfold in_arc_from in Harc. destruct i; cbn in Harc; contradiction.
  - inversion Hpos as [|? ? Hx Hl]; subst. cbn [winner_loop].
    destruct i as [|k].
    + unfold in_arc_from in Harc. cbn in Harc. exists x. split; [reflexivity|].
      replace (in_slice theta cur x) with true; [reflexivity|].
      symmetry. apply in_slice_true. lra.
    + unfold in_arc_from in Harc. cbn [nth_error Spec.cumulative_start] in Harc.
      destruct (nth_error l k) as [seg|] eqn:Ek; [|contradiction].
      pose proof (cumulative_start_nonneg l k Hl) as H0.
      pose proof (sliceAngle_arc_width x) as Hs.
      replace (in_slice theta cur x) with false.
      * destruct (IH (cur + sliceAngle x)%Q theta k Hl) as [w [Hw Hloop]].
        { unfold in_arc_from. rewrite Ek. lra. }
        exists w. cbn [nth_error]. split; assumption.
      * symmetry. destruct (in_slice theta cur x) eqn:E; [|reflexivity].
        apply in_slice_true in E. lra.
Qed.

Lemma winner_loop_none (l : list WheelItem) (cur theta : Q) :
  Forall (fun item => 0 <= probability item) l ->
  winner_loop theta cur l = None <-> forall i, ~ in_arc_from cur l i theta.
Proof.
  intros Hpos. split.
  - intros Hnone i Harc.
    destruct (winner_loop_hit l cur theta i Hpos Harc) as [w [_ Hw]]. congruence.
  - intros Hall. destruct (winner_loop theta cur l) as [w|] eqn:E; [|reflexivity].
    apply winner_loop_some in E as [i [_ Harc]]. exfalso. exact (Hall i Harc).
Qed.

Lemma in_arc_from_zero (l : list WheelItem) (i : nat) (theta : Q) :
  in_arc_from 0 l i theta <-> Spec.in_arc l i theta.
Proof.
  unfold in_arc_from, Spec.in_arc. destruct (nth_error l i); [|tauto].
  split; intros [H1 H2]; split; lra.
Qed.

Lemma winner_loop_member (l : list WheelItem) (cur theta : Q) (w : WheelItem) :
  winner_loop theta cur l = Some w -> In w l.
Proof.
  intros H. apply winner_loop_some in H as [i [Hi _]].
  eapply nth_error_In. exact Hi.
Qed.

(** The winner is one of the items handed over, as far as its id goes. *)
Lemma determineWinner_id (rot : Q) (l : list WheelItem) (w : WheelItem) :
  determineWinner rot l = Some w -> In (id w) (ids l).
Proof.
  unfold determineWinner. intros H. apply winner_loop_member in H.
  rewrite <- (ids_normalize l None). unfold ids. apply in_map. assumption.
Qed.

Lemma with_probability_same (item : WheelItem) :
  with_probability item (probability item) = item.
Proof. destruct item. reflexivity. Qed.

Lemma loop_step_result (theta : Q) (st st' : loop_state) :
  loop_step theta st st' -> loop_result theta st = loop_result theta st'.
Proof.
  intros H. destruct H as [cur item rest E|cur item rest E|cur];
    cbn [loop_result winner_loop]; try rewrite E; reflexivity.
Qed.

Lemma loop_returns_result (theta : Q) (st : loop_state) (w : option WheelItem) :
  loop_returns theta st w -> w = loop_result theta st.
Proof.
  induction 1 as [r|st st' r Hstep _ IH].
  - reflexivity.
  - rewrite (loop_step_result theta st st' Hstep). exact IH.
Qed.

Lemma loop_terminates (theta : Q) (l : list WheelItem) (cur : Q) :
  loop_returns theta (Scanning cur l) (winner_loop theta cur l).
Proof.
  revert cur. induction l as [|x l IH]; intros cur; cbn [winner_loop].
  - eapply returns_later; [apply step_exhausted|apply returns_now].
  - destruct (in_slice theta cur x) eqn:E.
    + eapply returns_later; [apply step_return; exact E|apply returns_now].
    + eapply returns_later; [apply step_next; exact E|apply IH].
Qed.

End Resolver.

(** * Binary64 arithmetic and the layout of the wheel *)

Section Binary64.

Lemma In_range (lo : Z) (n : nat) (z : Z) :
  lo <= z < lo + Z.of_nat n -> In z (range lo n).
Proof.
  intros H. unfold range. apply in_map_iff.
  exists (Z.to_nat (z - lo)). split; [lia|]. apply in_seq. lia.
Qed.

Lemma map_pointwise {A B : Type} (f g : A -> B) (l : list A) :
  map f l = map g l -> forall x, In x l -> f x = g x.
Proof.
  induction l as [|a l IH]; cbn [map]; intros E x Hx; [destruct Hx|].
  injection E as E1 E2. destruct Hx as [<-|Hx]; [assumption|].
  apply IH; assumption.
Qed.

(** Adding an integer weight up to 100 to a partial sum up to 100 is exact. *)
Lemma small_sum_exact (s w : Z) :
  0 <= s <= 100 -> 1 <= w <= 100 ->
  (Double.of_Z s + Double.of_Z w)%float = Double.of_Z (s + w).
Proof.
  intros Hs Hw.
  assert (E : map (fun s => map (fun w => (Double.of_Z s + Double.of_Z w)%float)
                                (range 1 100)) (range 0 101)
              = map (fun s => map (fun w => Double.of_Z (s + w)) (range 1 100))
                    (range 0 101)).
  { vm_compute. reflexivity. }
  pose proof (map_pointwise _ _ _ E s (In_range 0 101 s ltac:(lia))) as E'.
  cbv beta in E'.
  exact (map_pointwise _ _ _ E' w (In_range 1 100 w ltac:(lia))).
Qed.

(** An integer weight from 1 to 100 passes the clamp, and its share of a
    total of 100, rounded and clamped, is the weight itself. *)
Lemma small_weight_kept (w : Z) :
  1 <= w <= 100 ->
  Double.Math_max 1 (Double.of_Z w) = Double.of_Z w
  /\ Double.Math_max 1
       (Double.Math_round ((Double.of_Z w / Double.of_Z 100) * 100)%float)
     = Double.of_Z w.
Proof.
  intros Hw. split.
  - assert (E : map (fun w => Double.Math_max 1 (Double.of_Z w)) (range 1 100)
                = map Double.of_Z (range 1 100)).
    { vm_compute. reflexivity. }
    exact (map_pointwise _ _ _ E w (In_range 1 100 w ltac:(lia))).
  - assert (E : map (fun w => Double.Math_max 1
                       (Double.Math_round
                          ((Double.of_Z w / Double.of_Z 100) * 100)%float))
                    (range 1 100)
                = map Double.of_Z (range 1 100)).
    { vm_compute. reflexivity. }
    exact (map_pointwise _ _ _ E w (In_range 1 100 w ltac:(lia))).
Qed.

(** Weights that are at least 1 and add up to 100 are at most 100. *)
Lemma small_weights (items : list WheelItem) :
  sum_probability items = 100 ->
  Forall (fun item => 1 <= probability item) items ->
  Forall (fun item => 1 <= probability item <= 100) items.
Proof.
  rewrite sum_probability_Zsum. intros Hsum Hone.
  apply Forall_forall. intros x Hx.
  rewrite Forall_forall in Hone. split; [apply Hone; exact Hx|].
  assert (H : forall l : list WheelItem,
            (forall y, In y l -> 1 <= probability y) -> In x l ->
            probability x <= Zsum (probabilities l)).
  { induction l as [|y l IH]; intros Hl Hin; [destruct Hin|].
    cbn [probabilities map Zsum].
    change (map probability l) with (probabilities l).
    assert (0 <= Zsum (probabilities l)).
    { pose proof (Zsum_lower (probabilities l)) as Hlow.
      assert (Forall (fun p => 1 <= p) (probabilities l)).
      { unfold probabilities. apply Forall_map. apply Forall_forall.
        intros z Hz. apply Hl. right. exact Hz. }
      specialize (Hlow H). lia. }
    destruct Hin as [->|Hin]; [lia|].
    pose proof (Hl y (or_introl eq_refl)).
    specialize (IH (fun z Hz => Hl z (or_intror Hz)) Hin). lia. }
  specialize (H items Hone Hx). lia.
Qed.

Lemma width_close_spec (x : WheelItem) :
  1 <= probability x <= 100 ->
  exists width : Q,
    Double.value (sliceAngle64 (as_given x)) = Some width
    /\ (Spec.arc_width x - (1 # 17592186044416) <= width)%Q
    /\ (width <= Spec.arc_width x + (1 # 17592186044416))%Q.
Proof.
  intros Hx.
  assert (E : forallb width_close (range 1 100) = true)
    by (vm_compute; reflexivity).
  rewrite forallb_forall in E.
  specialize (E (probability x) (In_range 1 100 (probability x) ltac:(lia))).
  unfold width_close in E.
  change (sliceAngle64 (as_given x))
    with ((360 * Double.of_Z (probability x)) / 100)%float.
  destruct (Double.value _) as [v|]; [|discriminate].
  exists v. split; [reflexivity|].
  apply andb_true_iff in E as [E1 E2].
  apply Qle_bool_iff in E1, E2. unfold Spec.arc_width. split; assumption.
Qed.

Lemma safe64_small (items : list WheelItem) :
  Forall (fun item => 1 <= probability item <= 100) items ->
  map safe64 items = map as_given items.
Proof.
  intros H. apply map_ext_in. intros x Hx.
  rewrite Forall_forall in H. specialize (H x Hx).
  unfold safe64, as_given. f_equal. apply small_weight_kept. assumption.
Qed.

Lemma small_total_exact (items : list WheelItem) (s : Z) :
  Forall (fun item => 1 <= probability item <= 100) items ->
  0 <= s -> s + Zsum (probabilities items) <= 100 ->
  fold_left (fun sum item => (sum + weight64 item)%float)
            (map as_given items) (Double.of_Z s)
  = Double.of_Z (s + Zsum (probabilities items)).
Proof.
  intros H. revert s.
  induction H as [|x l Hx Hl IH]; intros s Hs Hle;
    cbn [map fold_left probabilities Zsum].
  - apply f_equal. lia.
  - assert (Hrest : 0 <= Zsum (probabilities l)).
    { pose proof (Zsum_lower (probabilities l)) as Hlow.
      assert (Forall (fun p => 1 <= p) (probabilities l)).
      { unfold probabilities. apply Forall_map.
        eapply Forall_impl; [|exact Hl]. cbv beta. intros; lia. }
      specialize (Hlow H). lia. }
    cbn [probabilities map Zsum] in Hle.
    change (map probability l) with (probabilities l) in Hle.
    cbn [weight64 as_given]. cbv beta in Hx.
    change (map probability l) with (probabilities l).
    rewrite small_sum_exact by lia.
    rewrite IH by lia. apply f_equal. lia.
Qed.

(** Weights from 1 to 100 that add up to 100 pass the normalizer as they
    are. *)
Lemma normalize64_fixed_point (items : list WheelItem) :
  Forall (fun item => 1 <= probability item <= 100) items ->
  sum_probability items = 100 ->
  normalizeProbabilities64 items None = map as_given items.
Proof.
  intros H Hsum. unfold normalizeProbabilities64.
  change (map (fun item => mkWeighted item
                 (Double.Math_max 1 (Double.of_Z (probability item)))) items)
    with (map safe64 items).
  rewrite (safe64_small items H).
  assert (Htotal : sum_weight64 (map as_given items) = Double.of_Z 100).
  { unfold sum_weight64. change 0%float with (Double.of_Z 0).
    rewrite small_total_exact; [|assumption|lia|].
    - apply f_equal. rewrite <- sum_probability_Zsum. lia.
    - rewrite <- sum_probability_Zsum. lia. }
  rewrite Htotal.
  change (Double.of_Z 100 =? 0)%float with false. cbn [Js.truthy].
  rewrite map_map. apply map_ext_in. intros x Hx.
  rewrite Forall_forall in H. specialize (H x Hx).
  unfold as_given. cbn [item_of weight64]. f_equal.
  apply small_weight_kept. assumption.
Qed.

(** In proportional mode the arcs are those of the items, in their order. *)
Lemma normalize64_items (items : list WheelItem) :
  map item_of (normalizeProbabilities64 items None) = items.
Proof.
  unfold normalizeProbabilities64.
  destruct (sum_weight64 _ =? 0)%float; cbn [Js.truthy];
    rewrite ?map_map; cbn [item_of]; apply map_id.
Qed.

Lemma cumulative_start64_next (pre rest : list weighted) (arc : weighted) :
  cumulative_start64 (pre ++ arc :: rest) (S (List.length pre))
  = (cumulative_start64 (pre ++ arc :: rest) (List.length pre)
     + sliceAngle64 arc)%float.
Proof.
  cbn [cumulative_start64].
  rewrite nth_error_app2 by lia. rewrite Nat.sub_diag. reflexivity.
Qed.

Lemma in_arc64_slice (pre rest : list weighted) (arc : weighted) (theta : Q) :
  in_arc64 (pre ++ arc :: rest) (List.length pre) theta
  <-> in_slice64 theta
        (cumulative_start64 (pre ++ arc :: rest) (List.length pre)) arc = true.
Proof.
  unfold in_arc64, in_slice64.
  rewrite nth_error_app2 by lia. rewrite Nat.sub_diag. cbn [nth_error].
  rewrite andb_true_iff. reflexivity.
Qed.


Lemma in_arc64_dec (arcs : list weighted) (i : nat) (theta : Q) :
  in_arc64 arcs i theta \/ ~ in_arc64 arcs i theta.
Proof.
  unfold in_arc64. destruct (nth_error arcs i) as [arc|]; [|right; tauto].
  destruct (Double.ge theta (cumulative_start64 arcs i));
    destruct (Double.lt theta _); intuition discriminate.
Qed.

(** Below [k] either no arc from [lo] on holds the pointer or one does. *)
Lemma dec_first (arcs : list weighted) (theta : Q) (lo k : nat) :
  (forall j, (lo <= j < k)%nat -> ~ in_arc64 arcs j theta)
  \/ exists j, (lo <= j < k)%nat /\ in_arc64 arcs j theta.
Proof.
  induction k as [|k IH].
  - left. intros j Hj. lia.
  - destruct IH as [Hall|[j [Hj Harc]]].
    + destruct (Nat.le_gt_cases lo k) as [Hle|Hgt].
      * destruct (in_arc64_dec arcs k theta) as [Hk|Hk].
        -- right. exists k. split; [lia|assumption].
        -- left. intros j Hj.
           destruct (Nat.eq_dec j k) as [->|Hne]; [assumption|].
           apply Hall. lia.
      * left. intros j Hj. lia.
    + right. exists j. split; [lia|assumption].
Qed.

(** The loop returns the first arc from its position on that holds the
    pointer. *)
Lemma winner_loop64_first (theta : Q) (arcs rest pre : list weighted)
    (w : weighted) :
  arcs = pre ++ rest ->
  winner_loop64 theta (cumulative_start64 arcs (List.length pre)) rest = Some w
  <-> exists i : nat,
        (List.length pre <= i)%nat /\ nth_error arcs i = Some w
        /\ in_arc64 arcs i theta
        /\ forall j : nat,
             (List.length pre <= j < i)%nat -> ~ in_arc64 arcs j theta.
Proof.
  revert pre. induction rest as [|arc rest IH]; intros pre E.
  - cbn [winner_loop64]. split; [discriminate|].
    intros [i [Hi [Hnth _]]]. exfalso.
    rewrite app_nil_r in E. subst arcs.
    apply nth_error_None in Hi. congruence.
  - cbn [winner_loop64].
    pose proof (in_arc64_slice pre rest arc theta) as Hslice.
    rewrite <- E in Hslice.
    assert (Hnth : nth_error arcs (List.length pre) = Some arc).
    { rewrite E, nth_error_app2 by lia. rewrite Nat.sub_diag. reflexivity. }
    destruct (in_slice64 theta _ arc) eqn:Hin.
    + split.
      * intros H. injection H as <-. exists (List.length pre).
        split; [lia|]. split; [assumption|]. split; [apply Hslice; reflexivity|].
        intros j Hj. lia.
      * intros [i [Hi [Hi' [_ Hfirst]]]].
        destruct (Nat.eq_dec i (List.length pre)) as [->|Hne]; [congruence|].
        exfalso. apply (Hfirst (List.length pre)); [lia|].
        apply Hslice. reflexivity.
    + assert (Hnot : ~ in_arc64 arcs (List.length pre) theta).
      { intros H. apply Hslice in H. discriminate. }
      specialize (IH (pre ++ [arc])).
      rewrite <- app_assoc in IH. cbn [app] in IH. specialize (IH E).
      rewrite length_app in IH. cbn [List.length] in IH.
      rewrite Nat.add_1_r in IH.
      assert (Hnext : cumulative_start64 arcs (S (List.length pre))
                      = (cumulative_start64 arcs (List.length pre)
                         + sliceAngle64 arc)%float).
      { rewrite E. apply cumulative_start64_next. }
      rewrite Hnext in IH. rewrite IH. split.
      * intros [i [Hi [Hi' [Harc Hfirst]]]]. exists i.
        split; [lia|]. split; [assumption|]. split; [assumption|].
        intros j Hj.
        destruct (Nat.eq_dec j (List.length pre)) as [->|Hne]; [assumption|].
        apply Hfirst. lia.
      * intros [i [Hi [Hi' [Harc Hfirst]]]]. exists i.
        assert (i <> List.length pre) by (intros ->; contradiction).
        split; [lia|]. split; [assumption|]. split; [assumption|].
        intros j Hj. apply Hfirst. lia.
Qed.

(** The loop falls through when no arc from its position on holds the
    pointer. *)
Lemma winner_loop64_none (theta : Q) (arcs rest pre : list weighted) :
  arcs = pre ++ rest ->
  winner_loop64 theta (cumulative_start64 arcs (List.length pre)) rest = None
  <-> forall i : nat, (List.length pre <= i)%nat -> ~ in_arc64 arcs i theta.
Proof.
  intros E. split.
  - intros Hnone i Hi Harc.
    assert (Hex : exists k, (List.length pre <= k)%nat /\ in_arc64 arcs k theta)
      by (exists i; split; assumption).
    clear i Hi Harc.
    assert (Hfirst : exists k w, (List.length pre <= k)%nat
              /\ nth_error arcs k = Some w /\ in_arc64 arcs k theta
              /\ forall j, (List.length pre <= j < k)%nat
                           -> ~ in_arc64 arcs j theta).
    { destruct Hex as [k Hk]. revert Hk.
      induction k as [k IHk] using (well_founded_induction lt_wf).
      intros [Hk Harc].
      destruct (dec_first arcs theta (List.length pre) k) as [Hall|[j [Hj Hjarc]]].
      - unfold in_arc64 in Harc. destruct (nth_error arcs k) as [w|] eqn:Hw;
          [|contradiction].
        exists k, w. split; [assumption|]. split; [assumption|].
        split; [unfold in_arc64; rewrite Hw; assumption|assumption].
      - apply (IHk j); [lia|]. split; [lia|assumption]. }
    destruct Hfirst as [k [w Hk]].
    assert (Hsome : winner_loop64 theta
              (cumulative_start64 arcs (List.length pre)) rest = Some w).
    { apply (winner_loop64_first theta arcs rest pre w E). exists k. exact Hk. }
    congruence.
  - intros Hall.
    destruct (winner_loop64 theta _ rest) as [w|] eqn:Hloop; [|reflexivity].
    apply (winner_loop64_first theta arcs rest pre w E) in Hloop.
    destruct Hloop as [i [Hi [_ [Harc _]]]]. exfalso. exact (Hall i Hi Harc).
Qed.


Lemma ge_lt_exclusive (theta : Q) (x : float) :
  Double.ge theta x = true -> Double.lt theta x = true -> False.
Proof.
  unfold Double.ge, Double.lt, Double.value, Js.Qlt_bool.
  destruct (Prim2SF x) as [s|s| |s m e].
  - destruct (Qle_bool 0 theta); discriminate.
  - destruct s; discriminate.
  - discriminate.
  - destruct (Qle_bool _ theta); discriminate.
Qed.

Lemma ge_or_lt (theta : Q) (x : float) :
  Double.is_number x = true -> Double.lt theta x = false -> Double.ge theta x = true.
Proof.
  unfold Double.is_number, Double.ge, Double.lt, Double.value, Js.Qlt_bool.
  destruct (Prim2SF x) as [s|s| |s m e].
  - destruct (Qle_bool 0 theta); [reflexivity|discriminate].
  - destruct s; [reflexivity|discriminate].
  - discriminate.
  - destruct (Qle_bool _ theta); [reflexivity|discriminate].
Qed.

Lemma ge_zero (theta : Q) : (0 <= theta)%Q -> Double.ge theta 0%float = true.
Proof.
  intros H. change (Double.ge theta 0%float) with (Qle_bool 0 theta).
  apply Qle_bool_iff. exact H.
Qed.

(** When no arc holds a pointer that is not negative, the pointer is at or
    past every boundary. *)
Lemma past_every_boundary (theta : Q) (arcs : list weighted) :
  (0 <= theta)%Q -> boundaries_are_numbers arcs = true ->
  (forall i, ~ in_arc64 arcs i theta) ->
  forall i, (i <= List.length arcs)%nat ->
            Double.ge theta (cumulative_start64 arcs i) = true.
Proof.
  intros Hpos Hnum Hnone. unfold boundaries_are_numbers in Hnum.
  rewrite forallb_forall in Hnum.
  induction i as [|i IH]; intros Hi.
  - apply ge_zero. exact Hpos.
  - specialize (IH ltac:(lia)).
    destruct (nth_error arcs i) as [arc|] eqn:Harc.
    + apply ge_or_lt.
      * apply Hnum. apply in_seq. lia.
      * cbn [cumulative_start64]. rewrite Harc.
        destruct (Double.lt theta _) eqn:Hlt; [|reflexivity].
        exfalso. apply (Hnone i). unfold in_arc64. rewrite Harc.
        split; assumption.
    + apply nth_error_None in Harc. lia.
Qed.

End Binary64.
(** * The claims *)

Section Claims.

(** C1: determinism of winner resolution: a call of [determineWinner] on a
    rotation and a list of visible items returns, and any two calls with the
    same arguments return the same segment (or null both times). *)
Theorem determineWinner_deterministic
    (currentRotation : Q) (visibleItems : list WheelItem) :
  call_returns currentRotation visibleItems
    (determineWinner currentRotation visibleItems)
  /\ forall first second : option WheelItem,
       call_returns currentRotation visibleItems first ->
       call_returns currentRotation visibleItems second ->
       first = second.
Proof.
  split.
  - apply loop_terminates.
  - intros first second H1 H2.
    apply loop_returns_result in H1, H2. congruence.
Qed.

(** C2, as stated, fails, in two ways.  First, [determineWinner] lays out
    the re-normalized weights, not the given ones: after
    [setWeight("3", 50)] the weights are 13, 13, 50, 13, 13; by these the arc
    of the third segment, [93.6, 273.6), holds the pointer 272, yet the
    fourth segment is returned, the arcs being those of 13, 13, 49, 13, 13.
    Second, the boundaries of the arcs are sums of doubles: with eleven
    segments of weight 8 and one of weight 12, which add up to 100 and pass
    the normalizer unchanged, the pointer 288 of the rotation 2088 is the
    start of the eleventh arc, [288, 316.8), yet the tenth segment is
    returned, ten widths of 28.8 adding up to 288.00000000000006. *)
Lemma determineWinner_arcs_counterexample :
  (probabilities pinned_scenario = [13; 13; 50; 13; 13]
   /\ Spec.in_arc pinned_scenario 2 (Js.rem 272 360)
   /\ option_map id (nth_error pinned_scenario 2) = Some "3"
   /\ option_map (fun w => id (item_of w))
                 (determineWinner64 272 pinned_scenario) = Some "4")
  /\ (probabilities twelve_segments = [8; 8; 8; 8; 8; 8; 8; 8; 8; 8; 8; 12]
      /\ normalizeProbabilities64 twelve_segments None
         = map as_given twelve_segments
      /\ Spec.in_arc twelve_segments 10 (Js.rem 2088 360)
      /\ option_map (fun w => id (item_of w))
                    (determineWinner64 2088 twelve_segments)
         = option_map id (nth_error twelve_segments 9)
      /\ cumulative_start64 (map as_given twelve_segments) 10
         = 0x1.2000000000001p+8%float).
Proof.
  split.
  - split; [reflexivity|]. split; [|split; vm_compute; reflexivity].
    unfold Spec.in_arc. cbn [pinned_scenario nth_error]. split.
    + apply Qle_bool_true. vm_compute. reflexivity.
    + apply Qlt_bool_true. vm_compute. reflexivity.
  - split; [reflexivity|]. split; [vm_compute; reflexivity|].
    split; [|split; vm_compute; reflexivity].
    unfold Spec.in_arc.
    replace (nth_error twelve_segments 10)
      with (Some (mkItem "1700000000005" "Prize" 8 (COLORS_at 0) None))
      by reflexivity.
    split.
    + apply Qle_bool_true. vm_compute. reflexivity.
    + apply Qlt_bool_true. vm_compute. reflexivity.
Qed.

(** C2, amended: [determineWinner] reduces the rotation with the remainder
    operator to a pointer strictly between -360 and 360 that differs from the
    rotation by a multiple of 360 and is in [0, 360) for a rotation that is
    not negative.  It re-normalizes the visible items in proportional mode
    and lays the re-normalized items out in list order from 0, the width of
    an arc being the double [(360 * weight) / 100] and the start of an arc
    the sum of the widths before it, added one by one in binary64.  It
    returns the first re-normalized item in list order whose half-open
    interval [[start, start + width)] holds the pointer, and null exactly
    when no interval does.  For weights that are at least 1 and add up to 100
    the re-normalized weights are the given ones and every width is within
    [2^-44] of [weight/100 * 360]. *)
Theorem determineWinner64_arcs
    (currentRotation : Q) (visibleItems : list WheelItem) :
  let theta := Js.rem currentRotation 360 in
  let arcs := normalizeProbabilities64 visibleItems None in
  ((-360 < theta)%Q /\ (theta < 360)%Q
   /\ ((0 <= currentRotation)%Q -> (0 <= theta)%Q)
   /\ exists k : Z, (currentRotation == theta + 360 * inject_Z k)%Q)
  /\ map item_of arcs = visibleItems
  /\ (forall w : weighted,
        determineWinner64 currentRotation visibleItems = Some w
        <-> exists i : nat,
              nth_error arcs i = Some w /\ in_arc64 arcs i theta
              /\ forall j : nat, (j < i)%nat -> ~ in_arc64 arcs j theta)
  /\ (determineWinner64 currentRotation visibleItems = None
      <-> forall i : nat, ~ in_arc64 arcs i theta)
  /\ (sum_probability visibleItems = 100 ->
      Forall (fun item => 1 <= probability item) visibleItems ->
      arcs = map as_given visibleItems
      /\ forall arc : weighted, In arc arcs ->
           exists width : Q,
             Double.value (sliceAngle64 arc) = Some width
             /\ (Spec.arc_width (item_of arc) - (1 # 17592186044416)
                 <= width)%Q
             /\ (width
                 <= Spec.arc_width (item_of arc) + (1 # 17592186044416))%Q).
Proof.
  intros theta arcs.
  split; [apply rem_bounds|]. split; [apply normalize64_items|].
  split; [|split].
  - intros w. unfold determineWinner64. fold theta arcs.
    change 0%float with (cumulative_start64 arcs (@List.length weighted [])).
    rewrite (winner_loop64_first theta arcs arcs [] w eq_refl).
    cbn [List.length]. split; intros [i H]; exists i.
    + destruct H as (_ & Hi & Harc & Hfirst).
      split; [assumption|]. split; [assumption|].
      intros j Hj. apply Hfirst. lia.
    + destruct H as (Hi & Harc & Hfirst).
      split; [lia|]. split; [assumption|]. split; [assumption|].
      intros j Hj. apply Hfirst. lia.
  - unfold determineWinner64. fold theta arcs.
    change 0%float with (cumulative_start64 arcs (@List.length weighted [])).
    rewrite (winner_loop64_none theta arcs arcs [] eq_refl).
    cbn [List.length]. split; intros H i; [apply H; lia|intros _; apply H].
  - intros Hsum Hone.
    assert (Hsmall : Forall (fun item => 1 <= probability item <= 100)
                            visibleItems).
    { apply small_weights; assumption. }
    assert (E : arcs = map as_given visibleItems)
      by (apply normalize64_fixed_point; assumption).
    split; [exact E|].
    intros arc Hin. rewrite E in Hin. apply in_map_iff in Hin as [x [<- Hx]].
    rewrite Forall_forall in Hsmall. specialize (Hsmall x Hx).
    apply width_close_spec. exact Hsmall.
Qed.

(** The visible weights add up to exactly 100 after an equalization that
    leaves something visible. *)
Lemma equalized_visible_sum (u : list WheelItem) :
  NoDup (ids u) ->
  (1 <= visible_count
          (merge_visible (calculateEqualShare (getVisibleItems u)) u))%nat ->
  visible_sum (merge_visible (calculateEqualShare (getVisibleItems u)) u) = 100.
Proof.
  intros Hnd. unfold visible_count, visible_sum.
  destruct (equalize_spec u Hnd) as (_ & -> & _). intros Hcount.
  apply calculateEqualShare_sum. intros E. rewrite E in Hcount.
  cbn in Hcount. lia.
Qed.

Lemma toggled_ids (tid : string) (s : list WheelItem) :
  ids (map (fun item =>
              if (id item =? tid)%string
              then with_hidden item (negb (is_hidden item))
              else item) s) = ids s.
Proof.
  unfold ids. rewrite map_map. apply map_ext. intros x.
  destruct (id x =? tid)%string; reflexivity.
Qed.




(** C4: the claim holds up to 100 visible segments and fails beyond, where
    [calculateEqualShare] hands out [Math.floor(100 / n) = 0] without the
    clamp the normalizer applies.  From the initial five segments, 97 more
    are added (102 in all, every weight at least 1) and segment 1 is
    removed: 100 of the 101 remaining segments get weight 0. *)
Theorem removeItem_zero_weights :
  fresh_stamps (add_segments 97 ++ [RemoveSegment "1"]) initial_items = true
  /\ List.length (run (add_segments 97) initial_items) = 102%nat
  /\ forallb (fun item => 1 <=? probability item)
             (run (add_segments 97) initial_items) = true
  /\ probabilities (run (add_segments 97 ++ [RemoveSegment "1"]) initial_items)
     = repeat 0 100 ++ [100].
Proof. vm_compute. repeat split. Qed.

(** C5, as stated, fails: once the five initial segments are hidden,
    removing segment 1 leaves four hidden segments and no visible one, and
    the visible total is 0 instead of 100. *)
Lemma removeItem_all_hidden_counterexample :
  (2 < List.length (run hide_all initial_items))%nat
  /\ visible_count (removeItem "1" (run hide_all initial_items)) = 0%nat
  /\ visible_sum (removeItem "1" (run hide_all initial_items)) = 0
  /\ visible_sum (removeItem "1" (run hide_all initial_items)) <> 100.
Proof. vm_compute. repeat split; try lia; discriminate. Qed.

(** C5, amended: on a collection of more than two segments with unique ids,
    when [removeSegment] leaves at least one visible segment, the remaining
    segments keep their id, label, color and hidden flag, the [n] visible
    ones have, in list order, weight [floor(100/n)] but the last, which has
    [100 - floor(100/n) * (n - 1)], the visible total is exactly 100 and
    the hidden segments are untouched. *)
Theorem removeItem_equal_share (rid : string) (items : list WheelItem) :
  (2 < List.length items)%nat ->
  NoDup (ids items) ->
  (1 <= visible_count (removeItem rid items))%nat ->
  let remaining := filter (fun item => negb (id item =? rid)%string) items in
  let result := removeItem rid items in
  let n := Z.of_nat (visible_count result) in
  map frame result = map frame remaining
  /\ probabilities (getVisibleItems result)
     = repeat (100 / n) (visible_count result - 1)
       ++ [100 - (100 / n) * (n - 1)]
  /\ visible_sum result = 100
  /\ filter is_hidden result = filter is_hidden remaining.
Proof.
  intros Hlen Hnd Hcount remaining result n.
  assert (Hres : result
                 = merge_visible (calculateEqualShare (getVisibleItems remaining))
                     remaining).
  { unfold result, removeItem.
    replace (List.length items <=? 2)%nat with false
      by (symmetry; apply Nat.leb_gt; exact Hlen).
    reflexivity. }
  assert (Hnd' : NoDup (ids remaining)) by (apply ids_filter_NoDup; assumption).
  destruct (equalize_spec remaining Hnd') as (Hfr & Hv & Hh).
  rewrite <- Hres in Hfr, Hv, Hh.
  assert (Hne : getVisibleItems remaining <> []).
  { intros E. unfold visible_count in Hcount. fold result in Hcount.
    rewrite Hv, E in Hcount. cbn in Hcount. lia. }
  assert (Hn : visible_count result = List.length (getVisibleItems remaining)).
  { unfold visible_count. rewrite Hv.
    apply length_of_frame, calculateEqualShare_frame. }
  repeat split.
  - exact Hfr.
  - unfold n. rewrite Hn, Hv.
    apply (calculateEqualShare_probabilities _ Hne).
  - unfold visible_sum. rewrite Hv. apply calculateEqualShare_sum. exact Hne.
  - exact Hh.
Qed.

Lemma removeItem_equal_share_witness :
  summary (removeItem "1" initial_items)
  = [ ("2", 25, None); ("3", 25, None); ("4", 25, None); ("5", 25, None) ]
  /\ visible_sum (removeItem "1" initial_items) = 100.
Proof.
  split; [reflexivity|].
  apply (removeItem_equal_share "1" initial_items).
  - vm_compute. lia.
  - repeat constructor; cbn; intuition discriminate.
  - vm_compute. lia.
Defined.

(** C6: on a collection of at most two segments [removeSegment] returns
    the collection as it is, whatever the id; and after every sequence of
    operations from the initial collection, ids being handed out fresh, the
    collection has at least two segments. *)
Theorem removeItem_floor
    (items : list WheelItem) (rid : string) (ops : list operation) :
  (List.length items <= 2)%nat ->
  fresh_stamps ops initial_items = true ->
  removeItem rid items = items
  /\ (2 <= List.length (run ops initial_items))%nat.
Proof.
  intros Hlen Hfresh. split.
  - unfold removeItem.
    replace (List.length items <=? 2)%nat with true
      by (symmetry; apply Nat.leb_le; exact Hlen).
    reflexivity.
  - apply (at_least_two _ (invariant_run ops initial_items invariant_initial Hfresh)).
Qed.

Lemma removeItem_floor_witness :
  removeItem "1" two_items = two_items
  /\ (2 <= List.length
             (run [ RemoveSegment "1"; RemoveSegment "2"; RemoveSegment "3";
                    RemoveSegment "4"; RemoveSegment "5" ] initial_items))%nat.
Proof.
  apply (removeItem_floor two_items "1"
           [ RemoveSegment "1"; RemoveSegment "2"; RemoveSegment "3";
             RemoveSegment "4"; RemoveSegment "5" ]).
  - vm_compute. lia.
  - reflexivity.
Defined.

(** C7, as stated, fails: after [setWeight("3", 50)] on the initial
    collection the four other weights are not 12s and 13s adding up to 50. *)
Lemma setWeight_scenario_counterexample :
  ~ (exists a b c d : Z,
       probabilities pinned_scenario = [a; b; 50; c; d]
       /\ (a = 12 \/ a = 13) /\ (b = 12 \/ b = 13)
       /\ (c = 12 \/ c = 13) /\ (d = 12 \/ d = 13)
       /\ a + b + c + d = 50).
Proof.
  intros (a & b & c & d & H & _ & _ & _ & _ & Hsum).
  vm_compute in H. injection H as <- <- <- <-. discriminate Hsum.
Qed.

(** C7, amended: after [setWeight("3", 50)] on the initial collection,
    segment 3 has weight exactly 50 and each of the four others, rounded on
    its own, has weight [round(50 * 20/80) = round(12.5) = 13]; the four add
    up to 52 and the whole collection to 102, within the tolerance of one
    unit per segment.  Ids, labels, colors and hidden flags are unchanged. *)
Theorem setWeight_scenario :
  probabilities pinned_scenario = [13; 13; 50; 13; 13]
  /\ Z.max 1 (Js.Math_round (inject_Z (100 - 50) * (inject_Z 20 / inject_Z 80)))
     = 13
  /\ sum_probability
       (filter (fun item => negb (id item =? "3")%string) pinned_scenario) = 52
  /\ visible_sum pinned_scenario = 102
  /\ within_tolerance pinned_scenario
  /\ map frame pinned_scenario = map frame initial_items.
Proof.
  repeat split; try reflexivity.
  unfold within_tolerance. vm_compute. discriminate.
Qed.

(** C8: the normalizer does not look at the hidden flag.  With segment 2
    hidden (weights 25, 20, 25, 25, 25) and a segment of weight 10 appended,
    as [addItem] does, the hidden segment is rescaled from 20 to 15 and the
    visible weights add up to 84. *)
Theorem normalize_rescales_hidden :
  summary hidden_then_added
  = [ ("1", 25, None); ("2", 20, Some true); ("3", 25, None);
      ("4", 25, None); ("5", 25, None); (timestamp 0, 10, None) ]
  /\ addItem "Prize" (timestamp 0) hidden_scenario
     = normalizeProbabilities hidden_then_added None
  /\ summary (normalizeProbabilities hidden_then_added None)
     = [ ("1", 19, None); ("2", 15, Some true); ("3", 19, None);
         ("4", 19, None); ("5", 19, None); (timestamp 0, 8, None) ]
  /\ visible_sum (normalizeProbabilities hidden_then_added None) = 84
  /\ visible_count (normalizeProbabilities hidden_then_added None) = 5%nat.
Proof. vm_compute. repeat split. Qed.

(** C9: from the initial five segments of weight 20, [toggleVisibility("2")]
    leaves four visible segments of weight exactly 25 each; segment 2 keeps
    its weight 20 and is hidden; labels and colors are unchanged; and a spin
    never resolves to segment 2, whatever the rotation. *)
Theorem toggleVisibility_scenario :
  summary hidden_scenario
  = [ ("1", 25, None); ("2", 20, Some true); ("3", 25, None);
      ("4", 25, None); ("5", 25, None) ]
  /\ summary (getVisibleItems hidden_scenario)
     = [ ("1", 25, None); ("3", 25, None); ("4", 25, None); ("5", 25, None) ]
  /\ map label hidden_scenario = map label initial_items
  /\ map color hidden_scenario = map color initial_items
  /\ forall (currentRotation : Q) (w : WheelItem),
       spinWheel_winner currentRotation hidden_scenario = Some w ->
       In (id w) ["1"; "3"; "4"; "5"] /\ id w <> "2".
Proof.
  split; [reflexivity|]. split; [reflexivity|].
  split; [reflexivity|]. split; [reflexivity|].
  intros currentRotation w Hspin. unfold spinWheel_winner in Hspin.
  destruct (List.length (getVisibleItems hidden_scenario) <? 2)%nat;
    [discriminate|].
  apply determineWinner_id in Hspin.
  split; [exact Hspin|].
  intros E. rewrite E in Hspin. vm_compute in Hspin. intuition discriminate.
Qed.

(** C10: whatever the list and the fixed id, the normalizer returns a list
    of the same length in which the item at every position has the id,
    label, color and hidden flag of the input item at that position: only
    the weight is ever changed. *)
Theorem normalizeProbabilities_frame
    (updatedItems : list WheelItem) (fixedId : option string) :
  List.length (normalizeProbabilities updatedItems fixedId)
  = List.length updatedItems
  /\ Forall2 same_frame updatedItems
       (normalizeProbabilities updatedItems fixedId).
Proof.
  split; [apply length_normalize|].
  pose proof (normalize_frame updatedItems fixedId) as H.
  revert H. generalize (normalizeProbabilities updatedItems fixedId).
  induction updatedItems as [|x l IH]; intros [|y out] H;
    try discriminate; constructor.
  - pose proof (f_equal (hd (frame x)) H) as Hy. cbn [map hd] in Hy.
    unfold frame in Hy. unfold same_frame.
    injection Hy as -> -> -> ->. repeat split.
  - apply IH. apply (f_equal (@tl _)) in H. exact H.
Qed.

End Claims.

(** * Further properties of the code *)

Section NormalizerExtras.

Lemma truthy_some (fid : string) :
  fid <> EmptyString -> Js.truthy (Some fid) = Some fid.
Proof. intros H. destruct fid; [congruence|reflexivity]. Qed.

Lemma find_clamped_present (fid : string) (l : list WheelItem) (x : WheelItem) :
  In x l -> id x = fid ->
  exists fx, Js.find (fun item => id item =? fid)%string (map clamp l) = Some fx.
Proof.
  intros Hin Hid.
  destruct (Js.find (fun item => (id item =? fid)%string) (map clamp l)) as [fx|] eqn:E.
  - exists fx. reflexivity.
  - exfalso. pose proof (find_none _ _ E (clamp x) (in_map clamp l x Hin)) as H.
    cbn [clamp with_probability id] in H. rewrite Hid, String.eqb_refl in H.
    discriminate.
Qed.

Lemma find_clamped_absent (fid : string) (l : list WheelItem) :
  ~ In fid (ids l) ->
  Js.find (fun item => id item =? fid)%string (map clamp l) = None.
Proof.
  intros Hno.
  destruct (Js.find (fun item => (id item =? fid)%string) (map clamp l)) as [fx|] eqn:E;
    [|reflexivity].
  exfalso. apply find_some in E as [Hin Hid]. apply String.eqb_eq in Hid.
  apply in_map_iff in Hin as [y [<- Hy]]. cbn [clamp with_probability id] in Hid.
  apply Hno. rewrite <- Hid. unfold ids. apply in_map. exact Hy.
Qed.

(** X1: whatever the list and the fixed id, every weight the normalizer
    returns is at least 1, so every returned item has an arc of positive
    width. *)
Theorem normalized_weights_at_least_one
    (updatedItems : list WheelItem) (fixedId : option string) :
  Forall (fun item => 1 <= probability item)
         (normalizeProbabilities updatedItems fixedId)
  /\ (forall item, In item (normalizeProbabilities updatedItems fixedId) ->
      (0 < sliceAngle item)%Q).
Proof.
  pose proof (normalize_positive updatedItems fixedId) as H.
  split; [exact H|].
  intros item Hin. rewrite Forall_forall in H. specialize (H item Hin).
  pose proof (sliceAngle_arc_width item) as E.
  pose proof (arc_width_scaled item) as E'.
  assert ((1 <= inject_Z (probability item))%Q).
  { change 1%Q with (inject_Z 1). rewrite <- Zle_Qle. exact H. }
  lra.
Qed.



Lemma fixed_position (l : list WheelItem) (fixedId : option string)
    (fid : string) (i : nat) (x : WheelItem) :
  Js.truthy fixedId = Some fid ->
  nth_error l i = Some x -> id x = fid ->
  nth_error (normalizeProbabilities l fixedId) i = Some (clamp x).
Proof.
  intros Hf Hi Hid.
  destruct (find_clamped_present fid l x (nth_error_In _ _ Hi) Hid)
    as [fx Hfind].
  rewrite (normalize_pinned_present _ _ fid fx Hf Hfind).
  rewrite map_map. rewrite nth_error_map, Hi. cbn [option_map].
  cbn [clamp with_probability id]. rewrite Hid, String.eqb_refl. reflexivity.
Qed.

(** X3: in pinned mode an item that has the fixed id comes back at its
    position with its weight only clamped to at least 1, whatever the other
    items are. *)
Theorem pinned_weight_kept
    (updatedItems : list WheelItem) (fid : string) (i : nat) (x : WheelItem) :
  fid <> EmptyString ->
  nth_error updatedItems i = Some x -> id x = fid ->
  nth_error (normalizeProbabilities updatedItems (Some fid)) i
  = Some (with_probability x (Z.max 1 (probability x))).
Proof.
  intros Hfid Hi Hid.
  rewrite (fixed_position updatedItems (Some fid) fid i x
             (truthy_some fid Hfid) Hi Hid).
  reflexivity.
Qed.

Lemma pinned_weight_kept_witness :
  nth_error (normalizeProbabilities initial_items (Some "3")) 2
  = Some (mkItem "3" "Prize 3" 20 (COLORS_at 2) None).
Proof.
  apply (pinned_weight_kept initial_items "3" 2
           (mkItem "3" "Prize 3" 20 (COLORS_at 2) None)).
  - discriminate.
  - reflexivity.
  - reflexivity.
Defined.



(** X4: with a fixed id that no item has, the normalizer only clamps every
    weight to at least 1; a list whose weights are all at least 1 comes back
    as it is. *)
Theorem unknown_fixed_id_only_clamps
    (updatedItems : list WheelItem) (fid : string) :
  fid <> EmptyString -> ~ In fid (ids updatedItems) ->
  normalizeProbabilities updatedItems (Some fid)
  = map (fun item => with_probability item (Z.max 1 (probability item)))
        updatedItems
  /\ (Forall (fun item => 1 <= probability item) updatedItems ->
      normalizeProbabilities updatedItems (Some fid) = updatedItems).
Proof.
  intros Hfid Hno.
  pose proof (normalize_pinned_absent updatedItems (Some fid) fid
                (truthy_some fid Hfid) (find_clamped_absent fid _ Hno)) as H.
  split; [exact H|].
  intros Hpos. rewrite H. rewrite <- (map_id updatedItems) at 2.
  apply map_ext_in. intros x Hx. rewrite Forall_forall in Hpos.
  unfold clamp. rewrite Z.max_r by (apply Hpos; exact Hx).
  apply with_probability_same.
Qed.

Lemma unknown_fixed_id_only_clamps_witness :
  normalizeProbabilities initial_items (Some "9") = initial_items.
Proof.
  apply (unknown_fixed_id_only_clamps initial_items "9").
  - discriminate.
  - cbn. intuition discriminate.
  - repeat constructor; cbn; lia.
Defined.

End NormalizerExtras.

Section Order.

Lemma share_monotone (k t p q : Z) :
  0 < t -> 1 <= p -> p <= q -> share k t p <= share k t q.
Proof.
  intros Ht Hp Hpq. unfold share.
  destruct (Z.le_gt_cases 0 k) as [Hk|Hk].
  - apply Z.max_le_compat_l. apply Z.div_le_mono; [lia|nia].
  - assert (H : forall r, 1 <= r -> (2 * (k * r) + t) / (2 * t) <= 0).
    { intros r Hr. assert ((2 * (k * r) + t) / (2 * t) < 1); [|lia].
      apply Z.div_lt_upper_bound; nia. }
    rewrite !Z.max_l by (pose proof (H p Hp); pose proof (H q ltac:(lia)); lia).
    lia.
Qed.

Lemma others_total_positive (fid : string) (l : list WheelItem) (x : WheelItem) :
  In x l -> id x <> fid ->
  0 < sum_probability
        (filter (fun item => negb (id item =? fid)%string) (map clamp l)).
Proof.
  intros Hin Hid.
  set (others := filter _ _).
  assert (Hx : In (clamp x) others).
  { apply filter_In. split; [apply in_map; exact Hin|].
    cbn [clamp with_probability id]. apply negb_true_iff, String.eqb_neq. exact Hid. }
  assert (Hall : Forall (fun p => 1 <= p) (probabilities others)).
  { unfold probabilities, others. apply Forall_map, Forall_forall.
    intros y Hy. apply filter_In in Hy as [Hy _].
    apply in_map_iff in Hy as [z [<- _]].
    cbn [clamp with_probability probability]. apply Z.le_max_l. }
  pose proof (Zsum_lower _ Hall) as Hlow.
  rewrite sum_probability_Zsum.
  unfold probabilities in Hlow at 1. rewrite length_map in Hlow.
  destruct others; [destruct Hx|]. cbn [List.length] in Hlow. lia.
Qed.

(** X5: normalization keeps the order of the weights: of two items that are
    not the fixed one, the one with the smaller weight before never has the
    larger weight after. *)
Theorem normalization_keeps_order
    (updatedItems : list WheelItem) (fixedId : option string)
    (i j : nat) (x y x' y' : WheelItem) :
  nth_error updatedItems i = Some x ->
  nth_error updatedItems j = Some y ->
  nth_error (normalizeProbabilities updatedItems fixedId) i = Some x' ->
  nth_error (normalizeProbabilities updatedItems fixedId) j = Some y' ->
  (forall fid, Js.truthy fixedId = Some fid -> id x <> fid /\ id y <> fid) ->
  probability x <= probability y ->
  probability x' <= probability y'.
Proof.
  intros Hi Hj Hi' Hj' Hfixed Hxy.
  assert (Hne : updatedItems <> []).
  { intros E. rewrite E in Hi. destruct i; discriminate. }
  assert (Hc : Z.max 1 (probability x) <= Z.max 1 (probability y)) by lia.
  destruct (Js.truthy fixedId) as [fid|] eqn:Hf.
  - destruct (Hfixed fid eq_refl) as [Hx Hy].
    destruct (Js.find (fun item => id item =? fid)%string (map clamp updatedItems))
      as [fx|] eqn:Hfind.
    + rewrite (normalize_pinned_present _ _ fid fx Hf Hfind) in Hi', Hj'.
      rewrite map_map, nth_error_map in Hi', Hj'. rewrite Hi in Hi'. rewrite Hj in Hj'.
      cbn [option_map clamp with_probability id probability] in Hi', Hj'.
      apply String.eqb_neq in Hx, Hy. rewrite Hx in Hi'. rewrite Hy in Hj'.
      injection Hi' as <-. injection Hj' as <-.
      cbn [with_probability probability].
      apply share_monotone; [|lia|exact Hc].
      apply (others_total_positive fid updatedItems x (nth_error_In _ _ Hi)).
      apply String.eqb_neq. exact Hx.
    + rewrite (normalize_pinned_absent _ _ fid Hf Hfind) in Hi', Hj'.
      rewrite nth_error_map in Hi', Hj'. rewrite Hi in Hi'. rewrite Hj in Hj'.
      injection Hi' as <-. injection Hj' as <-. exact Hc.
  - rewrite (normalize_proportional _ _ Hf) in Hi', Hj'.
    rewrite map_map, nth_error_map in Hi', Hj'. rewrite Hi in Hi'. rewrite Hj in Hj'.
    injection Hi' as <-. injection Hj' as <-.
    cbn [clamp with_probability probability].
    apply share_monotone; [|lia|exact Hc].
    apply clamped_total_positive. exact Hne.
Qed.

Lemma normalization_keeps_order_witness :
  probability (mkItem (timestamp 0) "Prize" 8 (COLORS_at 5) None)
  <= probability (mkItem "1" "Prize 1" 19 (COLORS_at 0) None).
Proof.
  apply (normalization_keeps_order hidden_then_added None 5 0
           (mkItem (timestamp 0) "Prize" 10 (COLORS_at 5) None)
           (mkItem "1" "Prize 1" 25 (COLORS_at 0) None)).
  - reflexivity.
  - reflexivity.
  - reflexivity.
  - reflexivity.
  - intros fid H. discriminate H.
  - cbn. lia.
Defined.

End Order.

Section ManagerExtras.

(** X6: on a list that is not empty [calculateEqualShare] gives
    [floor(100/n)] to all items but the last; the last gets the rest, which
    is at least the equal share and exceeds it by less than [n]; the shares
    add up to exactly 100 and nothing but the weight changes. *)
Theorem calculateEqualShare_shape (visibleItems : list WheelItem) :
  visibleItems <> [] ->
  let n := Z.of_nat (List.length visibleItems) in
  let equalShare := 100 / n in
  let last := 100 - equalShare * (n - 1) in
  probabilities (calculateEqualShare visibleItems)
  = repeat equalShare (List.length visibleItems - 1) ++ [last]
  /\ equalShare <= last < equalShare + n
  /\ 0 <= equalShare
  /\ sum_probability (calculateEqualShare visibleItems) = 100
  /\ map frame (calculateEqualShare visibleItems) = map frame visibleItems.
Proof.
  intros Hne n equalShare last.
  assert (Hn : 0 < n).
  { unfold n. destruct visibleItems; [congruence|]. cbn [List.length]. lia. }
  pose proof (Z.mul_div_le 100 n Hn) as Hle.
  pose proof (Z.mul_succ_div_gt 100 n Hn) as Hgt.
  fold equalShare in Hle, Hgt.
  assert (Hq : 0 <= equalShare) by (apply Z.div_pos; lia).
  split; [apply (calculateEqualShare_probabilities _ Hne)|].
  split; [unfold last; nia|].
  split; [exact Hq|].
  split; [apply calculateEqualShare_sum; exact Hne|].
  apply calculateEqualShare_frame.
Qed.

Lemma calculateEqualShare_shape_witness :
  probabilities (calculateEqualShare (removeItem "1" (removeItem "2" initial_items)))
  = [33; 33; 34].
Proof.
  apply (calculateEqualShare_shape (removeItem "1" (removeItem "2" initial_items))).
  discriminate.
Defined.

Lemma white_space_trims (s : string) :
  (forall c, In c (list_ascii_of_string s) -> Js.is_white_space c = true) ->
  Js.trims_to_empty s = true.
Proof.
  unfold Js.trims_to_empty.
  induction s as [|c s IH]; intros H; cbn [Js.trim_start].
  - reflexivity.
  - rewrite (H c (or_introl eq_refl)). apply IH.
    intros c' Hc'. apply H. right. exact Hc'.
Qed.

(** X7: [addItem] with a label made of spaces, tabs and line breaks only (or
    empty) leaves the collection as it is. *)
Theorem addItem_blank_label_rejected
    (newItemLabel now : string) (items : list WheelItem) :
  (forall c, In c (list_ascii_of_string newItemLabel) ->
             Js.is_white_space c = true) ->
  addItem newItemLabel now items = items.
Proof.
  intros H. unfold addItem. rewrite (white_space_trims _ H). reflexivity.
Qed.

Lemma addItem_blank_label_rejected_witness :
  addItem "   " (timestamp 0) initial_items = initial_items.
Proof.
  apply (addItem_blank_label_rejected "   " (timestamp 0) initial_items).
  intros c Hc. cbn in Hc. intuition (subst; reflexivity).
Defined.



(** X9: [updateProbability] gives a segment with the edited id exactly the
    value clamped to 1..99, the value itself when it is in that range, and
    changes no id, label, color or hidden flag. *)
Theorem updateProbability_pins
    (uid : string) (value : Z) (items : list WheelItem) (i : nat) (x : WheelItem) :
  uid <> EmptyString ->
  nth_error items i = Some x -> id x = uid ->
  let newValue := Z.max 1 (Z.min 99 value) in
  nth_error (updateProbability uid value items) i
  = Some (with_probability x newValue)
  /\ 1 <= newValue <= 99
  /\ (1 <= value <= 99 -> newValue = value)
  /\ map frame (updateProbability uid value items) = map frame items.
Proof.
  intros Huid Hi Hid newValue. unfold updateProbability. fold newValue.
  fold (with_new_value uid newValue items).
  split; [|split; [|split]].
  - rewrite (fixed_position _ (Some uid) uid i (with_probability x newValue)
               (truthy_some uid Huid)).
    + unfold clamp, with_probability.
      cbn [probability id label color hidden].
      do 2 f_equal. unfold newValue. lia.
    + unfold with_new_value. rewrite nth_error_map, Hi. cbn [option_map].
      rewrite Hid, String.eqb_refl. reflexivity.
    + exact Hid.
  - unfold newValue. lia.
  - unfold newValue. lia.
  - rewrite normalize_frame. apply with_new_value_frame.
Qed.

Lemma updateProbability_pins_witness :
  nth_error (updateProbability "3" 150 initial_items) 2
  = Some (mkItem "3" "Prize 3" 99 (COLORS_at 2) None).
Proof.
  apply (updateProbability_pins "3" 150 initial_items 2
           (mkItem "3" "Prize 3" 20 (COLORS_at 2) None)).
  - discriminate.
  - reflexivity.
  - reflexivity.
Defined.



End ManagerExtras.

Section RemoveToggle.

Lemma ids_filter (rid : string) (l : list WheelItem) :
  ids (filter (fun item => negb (id item =? rid)%string) l)
  = filter (fun i => negb (i =? rid)%string) (ids l).
Proof.
  unfold ids. induction l as [|x l IH]; cbn [filter map]; [reflexivity|].
  destruct (id x =? rid)%string; cbn [negb map]; rewrite IH; reflexivity.
Qed.

Lemma removeItem_accepted (rid : string) (items : list WheelItem) :
  (2 < List.length items)%nat ->
  removeItem rid items
  = merge_visible
      (calculateEqualShare
         (getVisibleItems
            (filter (fun item => negb (id item =? rid)%string) items)))
      (filter (fun item => negb (id item =? rid)%string) items).
Proof.
  intros Hlen. unfold removeItem.
  replace (List.length items <=? 2)%nat with false
    by (symmetry; apply Nat.leb_gt; exact Hlen).
  reflexivity.
Qed.

Lemma removed_id_gone (rid : string) (items : list WheelItem) :
  (2 < List.length items)%nat -> ~ In rid (ids (removeItem rid items)).
Proof.
  intros Hlen. rewrite (removeItem_accepted rid items Hlen).
  rewrite merge_visible_ids, ids_filter.
  intros Hin. apply filter_In in Hin as [_ Hin].
  rewrite String.eqb_refl in Hin. discriminate.
Qed.

(** X11: on more than two segments [removeItem] keeps exactly the segments
    whose id differs from the removed one, in order; the removed id is gone. *)
Theorem removeItem_ids (rid : string) (items : list WheelItem) :
  (2 < List.length items)%nat ->
  ids (removeItem rid items)
  = filter (fun i => negb (i =? rid)%string) (ids items)
  /\ ~ In rid (ids (removeItem rid items)).
Proof.
  intros Hlen. split.
  - rewrite (removeItem_accepted rid items Hlen).
    rewrite merge_visible_ids. apply ids_filter.
  - apply removed_id_gone. exact Hlen.
Qed.

Lemma removeItem_ids_witness :
  ids (removeItem "3" initial_items) = ["1"; "2"; "4"; "5"].
Proof.
  apply (removeItem_ids "3" initial_items). cbn. lia.
Defined.

Lemma filter_absent_id (rid : string) (l : list WheelItem) :
  ~ In rid (ids l) ->
  filter (fun item => negb (id item =? rid)%string) l = l.
Proof.
  intros Hno. apply forallb_filter_id. apply forallb_forall. intros z Hz.
  destruct (id z =? rid)%string eqn:Ez; [|reflexivity].
  apply String.eqb_eq in Ez. exfalso. apply Hno. rewrite <- Ez.
  unfold ids. apply in_map. exact Hz.
Qed.

Lemma remove_present_length (rid : string) (l : list WheelItem) :
  NoDup (ids l) -> In rid (ids l) ->
  S (List.length (filter (fun item => negb (id item =? rid)%string) l))
  = List.length l.
Proof.
  unfold ids. induction l as [|x l IH]; intros Hnd Hin; [destruct Hin|].
  cbn [map filter List.length] in *. inversion Hnd as [|? ? Hx Hl]; subst.
  destruct (id x =? rid)%string eqn:E; cbn [negb List.length].
  - apply String.eqb_eq in E. rewrite filter_absent_id; [reflexivity|].
    unfold ids. rewrite <- E. exact Hx.
  - f_equal. apply IH; [exact Hl|]. destruct Hin as [Hin|Hin]; [|exact Hin].
    apply String.eqb_neq in E. congruence.
Qed.

Lemma removed_one (rid : string) (items : list WheelItem) :
  NoDup (ids items) -> (2 < List.length items)%nat -> In rid (ids items) ->
  S (List.length (removeItem rid items)) = List.length items.
Proof.
  intros Hnd Hlen Hin. rewrite (removeItem_accepted rid items Hlen).
  unfold merge_visible. rewrite length_map.
  apply remove_present_length; assumption.
Qed.

(** X12: with unique ids and more than two segments, removing a present id
    takes away exactly one segment; removing an absent id takes away none
    and keeps every id, label, color and hidden flag (the visible weights are
    equalized all the same). *)
Theorem removeItem_length (rid : string) (items : list WheelItem) :
  NoDup (ids items) -> (2 < List.length items)%nat ->
  (In rid (ids items) ->
   S (List.length (removeItem rid items)) = List.length items)
  /\ (~ In rid (ids items) ->
      map frame (removeItem rid items) = map frame items).
Proof.
  intros Hnd Hlen. split.
  - apply removed_one; assumption.
  - intros Hno. rewrite (removeItem_accepted rid items Hlen).
    rewrite (filter_absent_id rid items Hno).
    apply (equalize_spec items Hnd).
Qed.

Lemma removeItem_length_witness :
  S (List.length (removeItem "3" initial_items)) = List.length initial_items.
Proof.
  apply (removeItem_length "3" initial_items).
  - repeat constructor; cbn; intuition discriminate.
  - cbn. lia.
  - cbn. tauto.
Defined.

(** What [toggleItemVisibility] does to an item before the equalization. *)
Lemma merge_visible_keeps_flags (nv u : list WheelItem) :
  Forall (fun ni => is_hidden ni = false) nv ->
  map is_hidden (merge_visible nv u) = map is_hidden u.
Proof.
  intros Hnv. unfold merge_visible. rewrite map_map. apply map_ext. intros x.
  destruct (is_hidden x) eqn:E; [exact E|].
  destruct (Js.find _ nv) as [ni|] eqn:F; [|exact E].
  apply find_some in F as [Hin _]. rewrite Forall_forall in Hnv.
  apply Hnv. exact Hin.
Qed.

Lemma equal_shares_visible (u : list WheelItem) :
  Forall (fun ni => is_hidden ni = false)
         (calculateEqualShare (getVisibleItems u)).
Proof.
  apply Forall_forall. intros ni Hin.
  pose proof (hidden_of_frame _ _ (calculateEqualShare_frame (getVisibleItems u))) as H.
  assert (Hall : Forall (fun b => b = false) (map is_hidden (getVisibleItems u))).
  { apply Forall_map, Forall_forall. intros y Hy.
    unfold getVisibleItems in Hy. apply filter_In in Hy as [_ Hy].
    apply negb_true_iff. exact Hy. }
  rewrite <- H in Hall. rewrite Forall_map, Forall_forall in Hall.
  apply Hall. exact Hin.
Qed.

Lemma flip_twice (tid : string) (l s' : list WheelItem) :
  ids s' = ids l ->
  map is_hidden s'
  = map (fun item =>
           if (id item =? tid)%string then negb (is_hidden item)
           else is_hidden item) l ->
  map (fun item =>
         if (id item =? tid)%string then negb (is_hidden item)
         else is_hidden item) s'
  = map is_hidden l.
Proof.
  unfold ids. revert s'.
  induction l as [|x l IH]; intros [|y s'] Hb Ha; try discriminate.
  - reflexivity.
  - cbn [map] in *. injection Ha as Ha1 Ha2. injection Hb as Hb1 Hb2.
    rewrite Ha1, Hb1. f_equal; [|apply IH; assumption].
    destruct (id x =? tid)%string; [apply negb_involutive|reflexivity].
Qed.

Lemma toggled_flags (tid : string) (s : list WheelItem) :
  map is_hidden (toggleItemVisibility tid s)
  = map (fun item =>
           if (id item =? tid)%string then negb (is_hidden item)
           else is_hidden item) s.
Proof.
  unfold toggleItemVisibility.
  rewrite (merge_visible_keeps_flags _ _ (equal_shares_visible _)).
  rewrite map_map. apply map_ext. intros x.
  destruct (id x =? tid)%string; reflexivity.
Qed.

Lemma toggled_result_ids (tid : string) (s : list WheelItem) :
  ids (toggleItemVisibility tid s) = ids s.
Proof.
  unfold toggleItemVisibility. rewrite merge_visible_ids. apply toggled_ids.
Qed.

(** X13: [toggleItemVisibility] flips the visibility of the segments with
    the given id and of no other, keeps the ids, and applied twice gives
    every segment its visibility back. *)
Theorem toggleItemVisibility_flags (tid : string) (items : list WheelItem) :
  map is_hidden (toggleItemVisibility tid items)
  = map (fun item =>
           if (id item =? tid)%string then negb (is_hidden item)
           else is_hidden item) items
  /\ ids (toggleItemVisibility tid items) = ids items
  /\ map is_hidden (toggleItemVisibility tid (toggleItemVisibility tid items))
     = map is_hidden items.
Proof.
  split; [apply toggled_flags|]. split; [apply toggled_result_ids|].
  rewrite toggled_flags.
  apply flip_twice; [apply toggled_result_ids|apply toggled_flags].
Qed.

(** X14: a visible segment hidden by [toggleItemVisibility] stays at its
    position unchanged but for [hidden: true], its weight included, and a
    hidden segment with another id is not touched at all. *)
Theorem toggleItemVisibility_hidden_kept
    (tid : string) (items : list WheelItem) (i : nat) (x : WheelItem) :
  nth_error items i = Some x ->
  (id x = tid -> is_hidden x = false ->
   nth_error (toggleItemVisibility tid items) i = Some (with_hidden x true))
  /\ (id x <> tid -> is_hidden x = true ->
      nth_error (toggleItemVisibility tid items) i = Some x).
Proof.
  intros Hi. unfold toggleItemVisibility, merge_visible.
  rewrite !nth_error_map, Hi. cbn [option_map]. split.
  - intros Hid Hvis. rewrite Hid, String.eqb_refl, Hvis. reflexivity.
  - intros Hid Hh. apply String.eqb_neq in Hid. rewrite Hid, Hh. reflexivity.
Qed.

Lemma toggleItemVisibility_hidden_kept_witness :
  nth_error (toggleItemVisibility "2" initial_items) 1
  = Some (mkItem "2" "Prize 2" 20 (COLORS_at 1) (Some true)).
Proof.
  apply (toggleItemVisibility_hidden_kept "2" initial_items 1
           (mkItem "2" "Prize 2" 20 (COLORS_at 1) None)); reflexivity.
Defined.

(** X15: with unique ids, when [toggleItemVisibility] leaves [n >= 1]
    visible segments, these have weight [floor(100/n)] but the last, which
    has the rest; the visible total is exactly 100; labels and colors are
    unchanged. *)
Theorem toggleItemVisibility_equal_share (tid : string) (items : list WheelItem) :
  NoDup (ids items) ->
  (1 <= visible_count (toggleItemVisibility tid items))%nat ->
  let result := toggleItemVisibility tid items in
  let n := Z.of_nat (visible_count result) in
  probabilities (getVisibleItems result)
  = repeat (100 / n) (visible_count result - 1) ++ [100 - (100 / n) * (n - 1)]
  /\ visible_sum result = 100
  /\ map label result = map label items
  /\ map color result = map color items.
Proof.
  intros Hnd Hcount result n.
  set (u := map (fun item =>
                   if (id item =? tid)%string
                   then with_hidden item (negb (is_hidden item))
                   else item) items).
  assert (Hnd' : NoDup (ids u)) by (unfold u; rewrite toggled_ids; exact Hnd).
  destruct (equalize_spec u Hnd') as (Hfr & Hv & _).
  change (merge_visible (calculateEqualShare (getVisibleItems u)) u)
    with result in Hfr, Hv.
  assert (Hne : getVisibleItems u <> []).
  { intros E. unfold visible_count in Hcount. fold result in Hcount.
    rewrite Hv, E in Hcount. cbn in Hcount. lia. }
  assert (Hn : visible_count result = List.length (getVisibleItems u)).
  { unfold visible_count. rewrite Hv.
    apply length_of_frame, calculateEqualShare_frame. }
  split; [|split; [|split]].
  - unfold n. rewrite Hn, Hv. apply (calculateEqualShare_probabilities _ Hne).
  - unfold visible_sum. rewrite Hv. apply calculateEqualShare_sum. exact Hne.
  - change (map label result)
      with (map (fun x => snd (fst (fst (frame x)))) result).
    rewrite <- (map_map frame (fun f => snd (fst (fst f)))), Hfr.
    unfold u. rewrite !map_map. apply map_ext. intros x.
    destruct (id x =? tid)%string; reflexivity.
  - change (map color result)
      with (map (fun x => snd (fst (frame x))) result).
    rewrite <- (map_map frame (fun f => snd (fst f))), Hfr.
    unfold u. rewrite !map_map. apply map_ext. intros x.
    destruct (id x =? tid)%string; reflexivity.
Qed.

Lemma toggleItemVisibility_equal_share_witness :
  visible_sum (toggleItemVisibility "2" pinned_scenario) = 100.
Proof.
  apply (toggleItemVisibility_equal_share "2" pinned_scenario).
  - repeat constructor; cbn; intuition discriminate.
  - vm_compute. lia.
Defined.

End RemoveToggle.

Section ResolverExtras.

Lemma Qtrunc_comp (x y : Q) : (x == y)%Q -> Js.Qtrunc x = Js.Qtrunc y.
Proof.
  intros E. unfold Js.Qtrunc. rewrite (Qleb_comp 0%Q 0%Q (Qeq_refl 0%Q) x y E).
  destruct (Qle_bool 0 y).
  - apply Qfloor_comp. exact E.
  - apply Qceiling_comp. exact E.
Qed.

Lemma rem_comp (x y : Q) : (x == y)%Q -> (Js.rem x 360 == Js.rem y 360)%Q.
Proof.
  intros E. unfold Js.rem.
  assert (Ed : (x / 360 == y / 360)%Q) by (rewrite E; reflexivity).
  rewrite (Qtrunc_comp _ _ Ed), E. reflexivity.
Qed.

Lemma in_slice_comp (theta theta' cur cur' : Q) (item : WheelItem) :
  (theta == theta')%Q -> (cur == cur')%Q ->
  in_slice theta cur item = in_slice theta' cur' item.
Proof.
  intros Et Ec. unfold in_slice, Js.Qlt_bool.
  rewrite (Qleb_comp cur cur' Ec theta theta' Et).
  assert (Es : (cur + sliceAngle item == cur' + sliceAngle item)%Q)
    by (rewrite Ec; reflexivity).
  rewrite (Qleb_comp _ _ Es theta theta' Et). reflexivity.
Qed.

Lemma winner_loop_comp (l : list WheelItem) : forall theta theta' cur cur',
  (theta == theta')%Q -> (cur == cur')%Q ->
  winner_loop theta cur l = winner_loop theta' cur' l.
Proof.
  induction l as [|x l IH]; intros theta theta' cur cur' Et Ec; cbn [winner_loop].
  - reflexivity.
  - rewrite (in_slice_comp theta theta' cur cur' x Et Ec).
    destruct (in_slice theta' cur' x); [reflexivity|].
    apply IH; [exact Et|]. rewrite Ec. reflexivity.
Qed.

Lemma determineWinner_comp (rot rot' : Q) (l : list WheelItem) :
  (rot == rot')%Q -> determineWinner rot l = determineWinner rot' l.
Proof.
  intros E. unfold determineWinner.
  apply winner_loop_comp; [apply rem_comp; exact E|reflexivity].
Qed.

(** A multiple of 360 strictly between -360 and 360 is 0. *)
Lemma small_multiple (d : Q) (m : Z) :
  (d == 360 * inject_Z m)%Q -> (-360 < d)%Q -> (d < 360)%Q -> (d == 0)%Q.
Proof.
  intros E Hl Hu.
  assert (H1 : (inject_Z (-1) < inject_Z m)%Q) by (change (inject_Z (-1)) with (-1)%Q; lra).
  assert (H2 : (inject_Z m < inject_Z 1)%Q) by (change (inject_Z 1) with 1%Q; lra).
  rewrite <- Zlt_Qlt in H1, H2. assert (m = 0) by lia. subst m.
  rewrite E. reflexivity.
Qed.

Lemma rem_nonpositive (x : Q) : (x <= 0)%Q -> (Js.rem x 360 <= 0)%Q.
Proof.
  intros Hx. unfold Js.rem, Js.Qtrunc.
  assert (Hd : (x == 360 * (x / 360))%Q) by field.
  destruct (Qle_bool 0 (x / 360)) eqn:E.
  - apply Qle_bool_iff in E.
    assert (Hz : (x / 360 == 0)%Q) by lra.
    rewrite (Qfloor_comp _ _ Hz). change (Qfloor 0) with 0%Z.
    change (inject_Z 0) with 0%Q. lra.
  - pose proof (Qle_ceiling (x / 360)) as Hc. lra.
Qed.

Lemma total_width (l : list WheelItem) (cur theta : Q) :
  Forall (fun item => 0 <= probability item) l ->
  (cur <= theta)%Q ->
  (theta < cur + inject_Z (sum_probability l) * (18 # 5))%Q ->
  exists w, winner_loop theta cur l = Some w.
Proof.
  intros Hpos. revert cur.
  induction Hpos as [|x l Hx Hl IH]; intros cur Hlo Hhi.
  - change (sum_probability []) with 0 in Hhi.
    change (inject_Z 0) with 0%Q in Hhi. lra.
  - cbn [winner_loop]. destruct (in_slice theta cur x) eqn:E.
    + exists x. reflexivity.
    + apply IH.
      * destruct (Qlt_le_dec theta (cur + sliceAngle x)) as [Hlt|Hge]; [|exact Hge].
        exfalso. assert (in_slice theta cur x = true); [|congruence].
        apply in_slice_true. pose proof (sliceAngle_arc_width x). lra.
      * rewrite sum_probability_cons, inject_Z_plus in Hhi.
        pose proof (sliceAngle_arc_width x). pose proof (arc_width_scaled x). lra.
Qed.

Lemma normalized_nonnegative (l : list WheelItem) (f : option string) :
  Forall (fun item => 0 <= probability item) (normalizeProbabilities l f).
Proof.
  eapply Forall_impl; [|apply normalize_positive]. cbv beta. intros; lia.
Qed.

Lemma covered_rotation (currentRotation : Q) (visibleItems : list WheelItem) :
  (0 <= currentRotation)%Q ->
  100 <= sum_probability (normalizeProbabilities visibleItems None) ->
  exists w, determineWinner currentRotation visibleItems = Some w.
Proof.
  intros Hrot Hsum.
  destruct (rem_bounds currentRotation) as (H1 & H2 & H3 & _).
  specialize (H3 Hrot).
  apply (total_width (normalizeProbabilities visibleItems None) 0
           (Js.rem currentRotation 360) (normalized_nonnegative _ _) H3).
  assert ((inject_Z 100 <= inject_Z (sum_probability
              (normalizeProbabilities visibleItems None)))%Q)
    by (rewrite <- Zle_Qle; exact Hsum).
  change (inject_Z 100) with 100%Q in H. lra.
Qed.

(** X16: [determineWinner] returns a winner, one of the visible segments,
    for every rotation that is not negative and whose pointer is below the
    double the widths of the arcs add up to, none of the sums being [NaN].
    That double is the end of the last arc; it is 360 for the five initial
    segments. *)
Theorem determineWinner64_covers
    (currentRotation : Q) (visibleItems : list WheelItem) :
  let theta := Js.rem currentRotation 360 in
  let arcs := normalizeProbabilities64 visibleItems None in
  (0 <= currentRotation)%Q ->
  boundaries_are_numbers arcs = true ->
  Double.lt theta (cumulative_start64 arcs (List.length arcs)) = true ->
  exists w : weighted,
    determineWinner64 currentRotation visibleItems = Some w
    /\ In (item_of w) visibleItems.
Proof.
  intros theta arcs Hrot Hnum Hend.
  assert (Htheta : (0 <= theta)%Q) by (apply rem_bounds; exact Hrot).
  unfold determineWinner64. fold theta arcs.
  change 0%float with (cumulative_start64 arcs (@List.length weighted [])).
  destruct (winner_loop64 theta _ arcs) as [w|] eqn:Hloop.
  - exists w. split; [reflexivity|].
    apply (winner_loop64_first theta arcs arcs [] w eq_refl) in Hloop.
    destruct Hloop as (i & _ & Hi & _).
    rewrite <- (normalize64_items visibleItems). fold arcs.
    apply in_map. apply (nth_error_In _ _ Hi).
  - exfalso.
    pose proof (proj1 (winner_loop64_none theta arcs arcs [] eq_refl) Hloop)
      as Hall.
    assert (Hnone : forall i, ~ in_arc64 arcs i theta).
    { intros i. apply Hall. cbn [List.length]. lia. }
    apply (ge_lt_exclusive theta (cumulative_start64 arcs (List.length arcs)));
      [|exact Hend].
    apply (past_every_boundary theta arcs Htheta Hnum Hnone). lia.
Qed.

Lemma determineWinner64_covers_witness :
  exists w : weighted,
    determineWinner64 2088 initial_items = Some w
    /\ In (item_of w) initial_items.
Proof.
  apply (determineWinner64_covers 2088 initial_items).
  - apply Qle_bool_true. reflexivity.
  - vm_compute. reflexivity.
  - vm_compute. reflexivity.
Defined.

(** X17: weights that add up to 100 do not exclude the null result.  Eleven
    equalized segments have the weights 9 (ten times) and 10, which pass the
    normalizer unchanged; their widths add up in binary64 to
    359.99999999999994, not to 360, so the pointer at that double, which is
    inside the last arc when the arcs are laid out exactly, is in no arc of
    the code and [determineWinner] returns null. *)
Theorem determineWinner64_rounding_gap :
  let gap := (360 - (1 # 17592186044416))%Q in
  probabilities eleven_segments = [9; 9; 9; 9; 9; 9; 9; 9; 9; 9; 10]
  /\ sum_probability eleven_segments = 100
  /\ normalizeProbabilities64 eleven_segments None
     = map as_given eleven_segments
  /\ cumulative_start64 (map as_given eleven_segments) 11
     = 0x1.67fffffffffffp+8%float
  /\ Double.value 0x1.67fffffffffffp+8%float = Some gap
  /\ Spec.in_arc eleven_segments 10 (Js.rem gap 360)
  /\ determineWinner64 gap eleven_segments = None.
Proof.
  intros gap.
  split; [reflexivity|]. split; [reflexivity|].
  split; [vm_compute; reflexivity|]. split; [vm_compute; reflexivity|].
  split; [vm_compute; reflexivity|]. split; [|vm_compute; reflexivity].
  unfold Spec.in_arc.
  replace (nth_error eleven_segments 10)
    with (Some (mkItem "1700000000005" "Prize" 10 (COLORS_at 0) None))
    by reflexivity.
  split.
  - apply Qle_bool_true. vm_compute. reflexivity.
  - apply Qlt_bool_true. vm_compute. reflexivity.
Qed.

(** X18: a negative rotation that is not a multiple of 360 never has a
    winner, whatever the items: the remainder operator leaves the pointer
    negative. *)
Theorem determineWinner_negative_rotation
    (currentRotation : Q) (visibleItems : list WheelItem) :
  (currentRotation < 0)%Q ->
  (forall k : Z, ~ (currentRotation == 360 * inject_Z k)%Q) ->
  determineWinner currentRotation visibleItems = None.
Proof.
  intros Hneg Hmult.
  destruct (rem_bounds currentRotation) as (H1 & H2 & _ & k & Hk).
  pose proof (rem_nonpositive currentRotation ltac:(lra)) as Hle.
  assert (Hlt : (Js.rem currentRotation 360 < 0)%Q).
  { destruct (Qlt_le_dec (Js.rem currentRotation 360) 0) as [H|H]; [exact H|].
    exfalso. apply (Hmult k). lra. }
  unfold determineWinner.
  apply (winner_loop_none _ 0 _ (normalized_nonnegative _ _)).
  intros i Harc. unfold in_arc_from in Harc.
  destruct (nth_error _ i) as [seg|]; [|exact Harc].
  pose proof (cumulative_start_nonneg _ i (normalized_nonnegative visibleItems None)).
  lra.
Qed.

Lemma determineWinner_negative_rotation_witness :
  determineWinner (-90)%Q initial_items = None.
Proof.
  apply (determineWinner_negative_rotation (-90)%Q initial_items).
  - apply Qlt_bool_true. reflexivity.
  - intros k E.
    assert (H : (inject_Z (4 * k) == inject_Z (-1))%Q).
    { rewrite inject_Z_mult. change (inject_Z 4) with 4%Q.
      change (inject_Z (-1)) with (-1)%Q. lra. }
    apply (proj1 (inject_Z_injective _ _)) in H. lia.
Defined.

(** X19: for a rotation that is not negative, adding full turns does not
    change the winner. *)
Theorem determineWinner_full_turns
    (currentRotation : Q) (turns : Z) (visibleItems : list WheelItem) :
  (0 <= currentRotation)%Q -> 0 <= turns ->
  determineWinner (currentRotation + 360 * inject_Z turns) visibleItems
  = determineWinner currentRotation visibleItems.
Proof.
  intros Hrot Hturns. unfold determineWinner.
  apply winner_loop_comp; [|reflexivity].
  assert (Ht : (0 <= inject_Z turns)%Q)
    by (change 0%Q with (inject_Z 0); rewrite <- Zle_Qle; exact Hturns).
  destruct (rem_bounds currentRotation) as (A1 & A2 & A3 & k & Hk).
  destruct (rem_bounds (currentRotation + 360 * inject_Z turns))
    as (B1 & B2 & B3 & k' & Hk').
  specialize (A3 Hrot). specialize (B3 ltac:(lra)).
  assert (E : (Js.rem (currentRotation + 360 * inject_Z turns) 360
               - Js.rem currentRotation 360 == 0)%Q).
  { apply (small_multiple _ (k + turns - k')); [|lra|lra].
    unfold Z.sub. rewrite !inject_Z_plus, inject_Z_opp. lra. }
  lra.
Qed.

Lemma determineWinner_full_turns_witness :
  determineWinner (100 + 360 * inject_Z 7) initial_items
  = determineWinner 100 initial_items.
Proof.
  apply (determineWinner_full_turns 100 7 initial_items).
  - apply Qle_bool_true. reflexivity.
  - lia.
Defined.

End ResolverExtras.

Section Partition.

Lemma in_arc_from_tail (start theta : Q) (x : WheelItem) (l : list WheelItem)
    (k : nat) :
  in_arc_from start (x :: l) (S k) theta
  <-> in_arc_from (start + Spec.arc_width x) l k theta.
Proof.
  unfold in_arc_from. cbn [nth_error Spec.cumulative_start].
  destruct (nth_error l k); [|tauto].
  split; intros [H1 H2]; split; lra.
Qed.

Lemma arcs_disjoint_from (l : list WheelItem) : forall start theta i j,
  Forall (fun item => 0 <= probability item) l ->
  in_arc_from start l i theta -> in_arc_from start l j theta -> i = j.
Proof.
  induction l as [|x l IH]; intros start theta i j Hpos Hi Hj.
  - unfold in_arc_from in Hi. destruct i; cbn in Hi; contradiction.
  - inversion Hpos as [|? ? Hx Hl]; subst.
    assert (Hout : forall k, in_arc_from start (x :: l) 0 theta ->
                             in_arc_from start (x :: l) (S k) theta -> False).
    { intros k H0 Hk. unfold in_arc_from in H0, Hk.
      cbn [nth_error Spec.cumulative_start] in H0, Hk.
      destruct (nth_error l k); [|exact Hk].
      pose proof (cumulative_start_nonneg l k Hl). lra. }
    destruct i as [|i], j as [|j].
    + reflexivity.
    + exfalso. exact (Hout j Hi Hj).
    + exfalso. exact (Hout i Hj Hi).
    + f_equal. apply in_arc_from_tail in Hi, Hj.
      exact (IH _ theta i j Hl Hi Hj).
Qed.

(** X20: the arcs of the normalized items do not overlap: a pointer lies in
    the arc of at most one position. *)
Theorem arcs_do_not_overlap
    (visibleItems : list WheelItem) (fixedId : option string)
    (theta : Q) (i j : nat) :
  Spec.in_arc (normalizeProbabilities visibleItems fixedId) i theta ->
  Spec.in_arc (normalizeProbabilities visibleItems fixedId) j theta ->
  i = j.
Proof.
  intros Hi Hj. apply in_arc_from_zero in Hi, Hj.
  exact (arcs_disjoint_from _ 0 theta i j (normalized_nonnegative _ _) Hi Hj).
Qed.

Lemma arcs_do_not_overlap_witness :
  2%nat = 2%nat.
Proof.
  apply (arcs_do_not_overlap initial_items None 150%Q 2 2).
  - unfold Spec.in_arc. cbn [nth_error]. split.
    + apply Qle_bool_true. vm_compute. reflexivity.
    + apply Qlt_bool_true. vm_compute. reflexivity.
  - unfold Spec.in_arc. cbn [nth_error]. split.
    + apply Qle_bool_true. vm_compute. reflexivity.
    + apply Qlt_bool_true. vm_compute. reflexivity.
Defined.

(** X21: a single segment, whatever its weight, is re-normalized to weight
    100 and wins at every rotation that is not negative. *)
Theorem determineWinner_single_segment (currentRotation : Q) (segment : WheelItem) :
  (0 <= currentRotation)%Q ->
  determineWinner currentRotation [segment]
  = Some (with_probability segment 100).
Proof.
  intros Hrot.
  assert (Hn : normalizeProbabilities [segment] None
               = [with_probability segment 100]).
  { rewrite (normalize_proportional [segment] None eq_refl).
    cbn [map clamp with_probability probability id label color hidden].
    rewrite sum_probability_cons. change (sum_probability []) with 0.
    set (t := Z.max 1 (probability segment)).
    assert (Ht : 1 <= t) by (unfold t; lia).
    unfold share. rewrite !Z.add_0_r.
    change (probability (clamp segment)) with t.
    replace (2 * (100 * t) + t) with (t + 100 * (2 * t)) by lia.
    rewrite Z.div_add by lia. rewrite Z.div_small by lia.
    reflexivity. }
  destruct (covered_rotation currentRotation [segment] Hrot) as [w Hw].
  { rewrite Hn. rewrite sum_probability_cons. cbn. lia. }
  rewrite Hw. unfold determineWinner in Hw. rewrite Hn in Hw.
  apply winner_loop_member in Hw. destruct Hw as [<-|[]]. reflexivity.
Qed.

Lemma determineWinner_single_segment_witness :
  determineWinner 5000%Q [mkItem "7" "Only" 3 (COLORS_at 0) None]
  = Some (mkItem "7" "Only" 100 (COLORS_at 0) None).
Proof.
  apply (determineWinner_single_segment 5000%Q
           (mkItem "7" "Only" 3 (COLORS_at 0) None)).
  apply Qle_bool_true. reflexivity.
Defined.

Lemma visible_not_hidden (items : list WheelItem) (i : string) :
  In i (ids (getVisibleItems items)) ->
  exists x, In x items /\ id x = i /\ is_hidden x = false.
Proof.
  unfold ids. intros H. apply in_map_iff in H as [x [Hid Hx]].
  unfold getVisibleItems in Hx. apply filter_In in Hx as [Hx Hv].
  exists x. repeat split; try assumption. apply negb_true_iff. exact Hv.
Qed.

Lemma spin_resolved (currentRotation : Q) (items : list WheelItem)
    (w : WheelItem) :
  spinWheel_winner currentRotation items = Some w ->
  (2 <= visible_count items)%nat
  /\ In w (normalizeProbabilities (getVisibleItems items) None).
Proof.
  unfold spinWheel_winner, visible_count. intros H.
  destruct (List.length (getVisibleItems items) <? 2)%nat eqn:E; [discriminate|].
  apply Nat.ltb_ge in E. split; [exact E|].
  unfold determineWinner in H. apply winner_loop_member in H. exact H.
Qed.

Lemma winner_source (currentRotation : Q) (items : list WheelItem)
    (w : WheelItem) :
  spinWheel_winner currentRotation items = Some w ->
  exists x, In x items /\ is_hidden x = false /\ frame w = frame x.
Proof.
  intros H. destruct (spin_resolved _ _ _ H) as [_ Hin].
  assert (Hfr : In (frame w) (map frame (getVisibleItems items))).
  { rewrite <- (normalize_frame (getVisibleItems items) None).
    apply in_map. exact Hin. }
  apply in_map_iff in Hfr as [x [Hx Hvis]].
  unfold getVisibleItems in Hvis. apply filter_In in Hvis as [Hvis Hv].
  apply negb_true_iff in Hv.
  exists x. repeat split; try assumption. symmetry. exact Hx.
Qed.

(** X22: a spin that resolves a winner had at least two visible segments;
    the winner is not hidden, has weight at least 1, and has the id, label,
    color and hidden flag of a visible segment of the collection. *)
Theorem spinWheel_winner_visible
    (currentRotation : Q) (items : list WheelItem) (w : WheelItem) :
  spinWheel_winner currentRotation items = Some w ->
  is_hidden w = false
  /\ 1 <= probability w
  /\ (2 <= visible_count items)%nat
  /\ exists x, In x items /\ is_hidden x = false
               /\ frame w = frame x.
Proof.
  intros H.
  destruct (spin_resolved _ _ _ H) as [Hcount Hin].
  destruct (winner_source _ _ _ H) as (x & Hx & Hv & Hfr).
  pose proof (normalize_positive (getVisibleItems items) None) as Hpos.
  rewrite Forall_forall in Hpos.
  split; [rewrite (frame_is_hidden w x Hfr); exact Hv|].
  split; [apply Hpos; exact Hin|]. split; [exact Hcount|].
  exists x. repeat split; assumption.
Qed.

Lemma spinWheel_winner_visible_witness :
  is_hidden (mkItem "5" "Prize 5" 25 (COLORS_at 4) None) = false.
Proof.
  apply (spinWheel_winner_visible 272%Q hidden_scenario
           (mkItem "5" "Prize 5" 25 (COLORS_at 4) None)).
  reflexivity.
Defined.

(** X23: [removeWinnerItem] works on the collection as it is when the button
    of the popup is clicked; the list buttons stay enabled during a spin, so
    it need not be the collection the spin started from.  With unique ids
    and more than two segments at the click, the winner is cleared and its
    id is not in the collection afterwards; the winning segment was in the
    collection the spin started from; if it still is at the click, as when
    nothing was edited meanwhile, exactly one segment is taken out; if it
    was removed meanwhile, every segment stays, with its id, label, color
    and hidden flag; either way the visible weights add up to 100 when a
    segment is still visible. *)
Theorem winner_then_remove
    (currentRotation : Q) (itemsAtStart itemsAtClick : list WheelItem)
    (w : WheelItem) :
  spinWheel_winner currentRotation itemsAtStart = Some w ->
  NoDup (ids itemsAtClick) -> (2 < List.length itemsAtClick)%nat ->
  let after := fst (removeWinnerItem (Some w) itemsAtClick) in
  snd (removeWinnerItem (Some w) itemsAtClick) = None
  /\ In (id w) (ids itemsAtStart)
  /\ ~ In (id w) (ids after)
  /\ (In (id w) (ids itemsAtClick) ->
      S (List.length after) = List.length itemsAtClick)
  /\ (~ In (id w) (ids itemsAtClick) ->
      map frame after = map frame itemsAtClick)
  /\ ((1 <= visible_count after)%nat -> visible_sum after = 100).
Proof.
  intros Hspin Hnd Hlen after. unfold after. cbn [removeWinnerItem fst snd].
  destruct (winner_source _ _ _ Hspin) as (x & Hx & _ & Hfr).
  split; [reflexivity|].
  split; [rewrite (frame_id _ _ Hfr); unfold ids; apply in_map; exact Hx|].
  split; [apply (removed_id_gone (id w) itemsAtClick Hlen)|].
  split; [apply (removed_one (id w) itemsAtClick Hnd Hlen)|].
  split.
  - intros Hno. rewrite (removeItem_accepted (id w) itemsAtClick Hlen).
    rewrite (filter_absent_id (id w) itemsAtClick Hno).
    apply (equalize_spec itemsAtClick Hnd).
  - rewrite (removeItem_accepted (id w) itemsAtClick Hlen).
    apply equalized_visible_sum. apply ids_filter_NoDup. exact Hnd.
Qed.

Lemma winner_then_remove_witness :
  map frame
    (fst (removeWinnerItem
            (Some (mkItem "5" "Prize 5" 25 (COLORS_at 4) None))
            (removeItem "5" hidden_scenario)))
  = map frame (removeItem "5" hidden_scenario).
Proof.
  apply (winner_then_remove 272%Q hidden_scenario
           (removeItem "5" hidden_scenario)
           (mkItem "5" "Prize 5" 25 (COLORS_at 4) None)).
  - reflexivity.
  - repeat constructor; cbn; intuition discriminate.
  - cbn. lia.
  - cbn. intuition discriminate.
Defined.

(** X24: the [Hide] button of the popup toggles the winning segment in the
    collection as it is at the click, which need not be the one the spin
    started from.  The winning segment was visible in the collection the
    spin started from.  With unique ids at the click: the flag of the segment
    with the winner's id is flipped; so if the segment is visible at the
    click, as when nothing was edited meanwhile, no spin started on the
    collection the click leaves resolves to it; and if it was hidden while
    the wheel was spinning, the click shows it again. *)
Theorem winner_then_hide
    (currentRotation : Q) (itemsAtStart itemsAtClick : list WheelItem)
    (w : WheelItem) :
  spinWheel_winner currentRotation itemsAtStart = Some w ->
  NoDup (ids itemsAtClick) ->
  let after := fst (hideWinner w itemsAtClick) in
  (exists x, In x itemsAtStart /\ id x = id w /\ is_hidden x = false)
  /\ (forall (i : nat) (x : WheelItem),
        nth_error itemsAtClick i = Some x -> id x = id w ->
        option_map is_hidden (nth_error after i) = Some (negb (is_hidden x)))
  /\ (forall x : WheelItem,
        In x itemsAtClick -> id x = id w -> is_hidden x = false ->
        forall (nextRotation : Q) (w' : WheelItem),
          spinWheel_winner nextRotation after = Some w' -> id w' <> id w).
Proof.
  intros Hspin Hnd after. unfold after. cbn [hideWinner fst].
  pose proof (toggled_flags (id w) itemsAtClick) as Hflags.
  pose proof (toggled_result_ids (id w) itemsAtClick) as Hids.
  split; [|split].
  - destruct (winner_source _ _ _ Hspin) as (z & Hz & Hzvis & Hzfr).
    exists z. split; [exact Hz|]. split; [|exact Hzvis].
    symmetry. apply (frame_id _ _ Hzfr).
  - intros i x Hi Hid.
    rewrite <- nth_error_map, Hflags, nth_error_map, Hi. cbn [option_map].
    rewrite Hid, String.eqb_refl. reflexivity.
  - intros z Hz Hzid Hzvis nextRotation w' Hnext Heq.
    destruct (winner_source _ _ _ Hnext) as (y & Hy & Hvis & Hfr).
    destruct (In_nth_error _ _ Hy) as [i Hi].
    assert (Hidy : nth_error (ids (toggleItemVisibility (id w) itemsAtClick)) i
                   = Some (id y)).
    { unfold ids. rewrite nth_error_map, Hi. reflexivity. }
    rewrite Hids in Hidy. unfold ids in Hidy. rewrite nth_error_map in Hidy.
    destruct (nth_error itemsAtClick i) as [x|] eqn:Hx; [|discriminate].
    cbn [option_map] in Hidy. injection Hidy as Hidx.
    assert (Hflag : nth_error
                      (map is_hidden (toggleItemVisibility (id w) itemsAtClick))
                      i
                    = Some (is_hidden y)).
    { rewrite nth_error_map, Hi. reflexivity. }
    rewrite Hflags, nth_error_map, Hx in Hflag. cbn [option_map] in Hflag.
    assert (Hxw : id x = id w).
    { rewrite Hidx, <- (frame_id _ _ Hfr). exact Heq. }
    rewrite Hxw, String.eqb_refl in Hflag. injection Hflag as Hflag.
    rewrite Hvis in Hflag.
    assert (x = z).
    { destruct (In_nth_error _ _ Hz) as [k Hk].
      assert (i = k).
      { apply (proj1 (NoDup_nth_error (ids itemsAtClick)) Hnd).
        - apply nth_error_Some. unfold ids. rewrite nth_error_map, Hx.
          discriminate.
        - unfold ids. rewrite !nth_error_map, Hx, Hk. cbn [option_map].
          rewrite Hxw, Hzid. reflexivity. }
      subst k. congruence. }
    subst z. rewrite Hzvis in Hflag. discriminate.
Qed.

Lemma winner_then_hide_witness :
  option_map is_hidden
    (nth_error
       (fst (hideWinner (mkItem "5" "Prize 5" 25 (COLORS_at 4) None)
                        (toggleItemVisibility "5" hidden_scenario)))
       4)
  = Some false.
Proof.
  destruct (winner_then_hide 272%Q hidden_scenario
              (toggleItemVisibility "5" hidden_scenario)
              (mkItem "5" "Prize 5" 25 (COLORS_at 4) None)
              ltac:(reflexivity)
              ltac:(vm_compute; repeat constructor; cbn; intuition discriminate))
    as (_ & Hflip & _).
  apply (Hflip 4%nat (mkItem "5" "Prize 5" 25 (COLORS_at 4) (Some true)));
    reflexivity.
Defined.

End Partition.

Section TextEditing.

Lemma decimal_prefix_digits (d : Decimal.uint) :
  JsNumber.decimal_prefix (NilEmpty.string_of_uint d) = d.
Proof.
  induction d; cbn [NilEmpty.string_of_uint JsNumber.decimal_prefix];
    try reflexivity;
    cbn [JsNumber.decimal_digit]; rewrite IHd; reflexivity.
Qed.

Lemma parse_unsigned_digits (sign : Z) (d : Decimal.uint) :
  d <> Decimal.Nil ->
  JsNumber.parse_unsigned sign (NilEmpty.string_of_uint d)
  = Some (sign * Z.of_uint d).
Proof.
  intros Hd.
  assert (H : JsNumber.parse_unsigned sign (NilEmpty.string_of_uint d)
              = JsNumber.decimal_value sign (NilEmpty.string_of_uint d)).
  { destruct d as [|d|d|d|d|d|d|d|d|d|d]; try reflexivity.
    destruct d; reflexivity. }
  rewrite H. unfold JsNumber.decimal_value. rewrite decimal_prefix_digits.
  destruct d; [congruence|..]; reflexivity.
Qed.

Lemma trim_start_digits (d : Decimal.uint) :
  Js.trim_start (NilEmpty.string_of_uint d) = NilEmpty.string_of_uint d.
Proof. destruct d; reflexivity. Qed.

Lemma parseInt_digits (d : Decimal.uint) :
  d <> Decimal.Nil ->
  JsNumber.parseInt (NilEmpty.string_of_uint d) = Some (Z.of_uint d).
Proof.
  intros Hd. unfold JsNumber.parseInt. rewrite trim_start_digits.
  rewrite <- (Z.mul_1_l (Z.of_uint d)).
  rewrite <- (parse_unsigned_digits 1 d Hd).
  destruct d; [congruence|..]; reflexivity.
Qed.

Lemma toString_safe (n : Z) :
  Z.abs n <= JsNumber.MAX_SAFE_INTEGER ->
  exists text : string,
    JsNumber.toString n = Some text /\ JsNumber.parseInt text = Some n.
Proof.
  intros Hn. unfold JsNumber.toString.
  replace (Z.abs n <=? JsNumber.MAX_SAFE_INTEGER) with true
    by (symmetry; apply Z.leb_le; exact Hn).
  exists (NilEmpty.string_of_int (Z.to_int n)). split; [reflexivity|].
  clear Hn.
  rewrite <- (DecimalZ.of_to n) at 2.
  destruct n as [|p|p]; cbn [Z.to_int NilEmpty.string_of_int Z.of_int].
  - reflexivity.
  - apply parseInt_digits. apply DecimalPos.Unsigned.to_uint_nonnil.
  - unfold JsNumber.parseInt.
    change (Js.trim_start (String "-" (NilEmpty.string_of_uint (Pos.to_uint p))))
      with (String "-" (NilEmpty.string_of_uint (Pos.to_uint p))).
    cbv iota.
    rewrite (parse_unsigned_digits (-1) _ (DecimalPos.Unsigned.to_uint_nonnil p)).
    f_equal; lia.
Qed.

Lemma clamp_twice (v : Z) :
  Z.max 1 (Z.min 99 (Z.max 1 (Z.min 99 v))) = Z.max 1 (Z.min 99 v).
Proof. lia. Qed.

Lemma updateProbability_clamped (uid : string) (v : Z) (items : list WheelItem) :
  updateProbability uid (Z.max 1 (Z.min 99 v)) items
  = updateProbability uid v items.
Proof. unfold updateProbability. rewrite clamp_twice. reflexivity. Qed.

(** X25: for a weight that is a safe integer, [parseInt] reads back what
    [toString] prints, so opening the weight field of a segment and saving it
    unedited is [updateProbability] with the segment's own weight. *)
Theorem saveProbability_unchanged_text (item : WheelItem) (items : list WheelItem) :
  id item <> EmptyString ->
  Z.abs (probability item) <= JsNumber.MAX_SAFE_INTEGER ->
  exists text : string,
    startEditingProbability item = Some (Some (id item), text)
    /\ JsNumber.parseInt text = Some (probability item)
    /\ saveProbability (Some (id item)) text items
       = updateProbability (id item) (probability item) items.
Proof.
  intros Hid Hsafe.
  destruct (toString_safe (probability item) Hsafe) as [text [Htext Hparse]].
  exists text. unfold startEditingProbability. rewrite Htext.
  split; [reflexivity|]. split; [exact Hparse|].
  unfold saveProbability.
  rewrite (truthy_some _ Hid), Hparse.
  cbn [JsNumber.or_zero]. apply updateProbability_clamped.
Qed.

Lemma saveProbability_unchanged_text_witness :
  exists text : string,
    startEditingProbability (mkItem "3" "Prize 3" 50 (COLORS_at 2) None)
    = Some (Some "3", text)
    /\ JsNumber.parseInt text = Some 50
    /\ saveProbability (Some "3") text pinned_scenario
       = updateProbability "3" 50 pinned_scenario.
Proof.
  apply (saveProbability_unchanged_text
           (mkItem "3" "Prize 3" 50 (COLORS_at 2) None) pinned_scenario).
  - discriminate.
  - vm_compute. discriminate.
Defined.

End TextEditing.

Section SpinExtras.

Lemma easeOut_cubic (t : Q) : (easeOut t == 1 - (1 - t) * (1 - t) * (1 - t))%Q.
Proof. unfold easeOut. simpl Qpower. ring. Qed.

Lemma easeOut_monotone (s t : Q) :
  (0 <= s)%Q -> (s <= t)%Q -> (t <= 1)%Q -> (easeOut s <= easeOut t)%Q.
Proof.
  intros H0 Hst H1. rewrite !easeOut_cubic.
  set (a := (1 - t)%Q). set (b := (1 - s)%Q).
  assert (Ha : (0 <= a)%Q) by (unfold a; lra).
  assert (Hab : (a <= b)%Q) by (unfold a, b; lra).
  assert (Haa : (a * a <= b * b)%Q) by nra.
  assert (H : (a * a * a <= b * b * b)%Q) by nra.
  lra.
Qed.

Lemma easeOut_range (t : Q) :
  (0 <= t)%Q -> (t <= 1)%Q -> (0 <= easeOut t)%Q /\ (easeOut t <= 1)%Q.
Proof.
  intros H0 H1. rewrite easeOut_cubic.
  set (a := (1 - t)%Q).
  assert (Ha : (0 <= a)%Q) by (unfold a; lra).
  assert (Ha1 : (a <= 1)%Q) by (unfold a; lra).
  assert (Haa : (0 <= a * a)%Q) by nra.
  assert (Haa1 : (a * a <= 1)%Q) by nra.
  split; nra.
Qed.

Lemma progress_range (elapsed : Q) :
  (0 <= elapsed)%Q ->
  (0 <= progress_at elapsed)%Q /\ (progress_at elapsed <= 1)%Q.
Proof.
  intros H. unfold progress_at, Math_min, duration.
  assert (Hd : (elapsed == 5000 * (elapsed / 5000))%Q) by field.
  destruct (Qle_bool (elapsed / 5000) 1) eqn:E.
  - apply Qle_bool_iff in E. split; lra.
  - split; lra.
Qed.

Lemma progress_monotone (e1 e2 : Q) :
  (e1 <= e2)%Q -> (progress_at e1 <= progress_at e2)%Q.
Proof.
  intros H. unfold progress_at, Math_min, duration.
  assert (Hd1 : (e1 == 5000 * (e1 / 5000))%Q) by field.
  assert (Hd2 : (e2 == 5000 * (e2 / 5000))%Q) by field.
  destruct (Qle_bool (e1 / 5000) 1) eqn:E1;
    destruct (Qle_bool (e2 / 5000) 1) eqn:E2.
  - lra.
  - apply Qle_bool_iff in E1. exact E1.
  - apply Qle_bool_iff in E2.
    assert (~ (e1 / 5000 <= 1)%Q).
    { intros C. apply Qle_bool_iff in C. congruence. }
    lra.
  - lra.
Qed.

Lemma progress_done (elapsed : Q) :
  (5000 <= elapsed)%Q ->
  (progress_at elapsed == 1)%Q /\ Js.Qlt_bool (progress_at elapsed) 1 = false.
Proof.
  intros H. unfold progress_at, Math_min, duration.
  assert (Hd : (elapsed == 5000 * (elapsed / 5000))%Q) by field.
  assert (E : (progress_at elapsed == 1)%Q).
  { unfold progress_at, Math_min, duration.
    destruct (Qle_bool (elapsed / 5000) 1) eqn:E.
    - apply Qle_bool_iff in E. lra.
    - reflexivity. }
  unfold progress_at, Math_min, duration in E. split; [exact E|].
  destruct (Js.Qlt_bool _ 1) eqn:L; [|reflexivity].
  apply Qlt_bool_true in L. lra.
Qed.

Lemma progress_running (elapsed : Q) :
  (elapsed < 5000)%Q -> Js.Qlt_bool (progress_at elapsed) 1 = true.
Proof.
  intros H. apply Qlt_bool_true. unfold progress_at, Math_min, duration.
  assert (Hd : (elapsed == 5000 * (elapsed / 5000))%Q) by field.
  destruct (Qle_bool (elapsed / 5000) 1) eqn:E; [lra|].
  assert (~ (elapsed / 5000 <= 1)%Q).
  { intros C. apply Qle_bool_iff in C. congruence. }
  lra.
Qed.

Lemma rotation_at_done (rotation spinAngle elapsed : Q) :
  (5000 <= elapsed)%Q ->
  (rotation_at rotation spinAngle elapsed == rotation + spinAngle)%Q.
Proof.
  intros H. unfold rotation_at.
  destruct (progress_done elapsed H) as [E _].
  rewrite easeOut_cubic, E. ring.
Qed.

Lemma animate_running (rotation spinAngle : Q) (visibleItems : list WheelItem)
    (frames : list Q) : forall st,
  Forall (fun elapsed => (elapsed < 5000)%Q) frames ->
  spinning (animate rotation spinAngle visibleItems frames st) = spinning st
  /\ winner_shown (animate rotation spinAngle visibleItems frames st)
     = winner_shown st.
Proof.
  induction frames as [|e frames IH]; intros st Hall; cbn [animate].
  - split; reflexivity.
  - inversion Hall as [|? ? He Hrest]; subst.
    rewrite (progress_running e He).
    destruct (IH (mkSpin (spinning st) (rotation_at rotation spinAngle e)
                         (winner_shown st)) Hrest) as [H1 H2].
    rewrite H1, H2. split; reflexivity.
Qed.

Lemma animate_ends (rotation spinAngle : Q) (visibleItems : list WheelItem)
    (before : list Q) (last : Q) (after : list Q) : forall st,
  Forall (fun elapsed => (elapsed < 5000)%Q) before ->
  (5000 <= last)%Q -> winner_shown st = None ->
  let st' := animate rotation spinAngle visibleItems (before ++ last :: after) st in
  spinning st' = false
  /\ (rotation_shown st' == rotation + spinAngle)%Q
  /\ winner_shown st' = determineWinner (rotation + spinAngle) visibleItems.
Proof.
  induction before as [|e before IH]; intros st Hall Hlast Hw; cbn [app animate].
  - destruct (progress_done last Hlast) as [_ L]. rewrite L.
    rewrite (determineWinner_comp _ _ visibleItems
               (rotation_at_done rotation spinAngle last Hlast)).
    destruct (determineWinner (rotation + spinAngle) visibleItems) as [w|];
      cbn [spinning rotation_shown winner_shown];
      (split; [reflexivity|split; [apply rotation_at_done; exact Hlast|]]).
    + reflexivity.
    + exact Hw.
  - inversion Hall as [|? ? He Hrest]; subst.
    rewrite (progress_running e He). apply IH; assumption.
Qed.

(** X26: a spin accepted with at least two visible segments ends at the
    first frame at or after 5000 ms, whatever the timing of the frames: the
    wheel is no longer spinning, and a winner, if one is shown, has weight at
    least 1 and the id, label, color and flag of a segment that was visible
    when the spin started. *)
Theorem spin_ends
    (random : Q) (before : list Q) (last : Q) (after : list Q)
    (items : list WheelItem) (st : spin_state) :
  spinning st = false -> (2 <= visible_count items)%nat ->
  Forall (fun elapsed => (elapsed < 5000)%Q) before -> (5000 <= last)%Q ->
  let st' := spinWheel random (before ++ last :: after) items st in
  spinning st' = false
  /\ forall w : WheelItem,
       winner_shown st' = Some w ->
       1 <= probability w
       /\ exists x, In x items /\ is_hidden x = false /\ frame w = frame x.
Proof.
  intros Hgate Hvis Hbefore Hlast st'. unfold st', spinWheel.
  rewrite Hgate.
  replace (List.length (getVisibleItems items) <? 2)%nat with false
    by (symmetry; apply Nat.ltb_ge; exact Hvis).
  destruct (animate_ends (rotation_shown st) (spinAngle_of random)
              (getVisibleItems items) before last after
              (mkSpin true (rotation_shown st) None) Hbefore Hlast eq_refl)
    as (H1 & _ & H3).
  split; [exact H1|].
  intros w Hw. rewrite H3 in Hw.
  assert (Hin : In w (normalizeProbabilities (getVisibleItems items) None)).
  { unfold determineWinner in Hw. apply winner_loop_member in Hw. exact Hw. }
  split.
  - pose proof (normalize_positive (getVisibleItems items) None) as Hpos.
    rewrite Forall_forall in Hpos. apply Hpos. exact Hin.
  - assert (Hfr : In (frame w) (map frame (getVisibleItems items))).
    { rewrite <- (normalize_frame (getVisibleItems items) None).
      apply in_map. exact Hin. }
    apply in_map_iff in Hfr as [x [Hx Hxvis]].
    unfold getVisibleItems in Hxvis. apply filter_In in Hxvis as [Hxin Hv].
    apply negb_true_iff in Hv.
    exists x. repeat split; try assumption. symmetry. exact Hx.
Qed.

Lemma spin_ends_witness :
  spinning (spinWheel (1 # 2) ([0; 1000; 2500] ++ 5000 :: [6000])%Q
              initial_items (mkSpin false 0 None)) = false.
Proof.
  apply (spin_ends (1 # 2) [0; 1000; 2500]%Q 5000%Q [6000]%Q
           initial_items (mkSpin false 0 None)).
  - reflexivity.
  - vm_compute. lia.
  - repeat constructor; apply Qlt_bool_true; reflexivity.
  - apply Qle_bool_true. reflexivity.
Defined.

(** X27: while every frame is before 5000 ms the spin is still running and
    shows no winner, and a further call of [spinWheel] changes nothing. *)
Theorem spin_in_progress
    (random : Q) (frames : list Q) (items : list WheelItem) (st : spin_state) :
  spinning st = false -> (2 <= visible_count items)%nat ->
  Forall (fun elapsed => (elapsed < 5000)%Q) frames ->
  let st' := spinWheel random frames items st in
  spinning st' = true
  /\ winner_shown st' = None
  /\ forall (again : Q) (later : list Q) (otherItems : list WheelItem),
       spinWheel again later otherItems st' = st'.
Proof.
  intros Hgate Hvis Hframes st'. unfold st', spinWheel.
  rewrite Hgate.
  replace (List.length (getVisibleItems items) <? 2)%nat with false
    by (symmetry; apply Nat.ltb_ge; exact Hvis).
  destruct (animate_running (rotation_shown st) (spinAngle_of random)
              (getVisibleItems items) frames
              (mkSpin true (rotation_shown st) None) Hframes) as [H1 H2].
  cbn [spinning winner_shown] in H1, H2.
  split; [exact H1|]. split; [exact H2|].
  intros again later otherItems. rewrite H1. reflexivity.
Qed.

Lemma spin_in_progress_witness :
  spinning (spinWheel (1 # 2) [0; 1000; 2500]%Q initial_items
              (mkSpin false 0 None)) = true.
Proof.
  apply (spin_in_progress (1 # 2) [0; 1000; 2500]%Q initial_items
           (mkSpin false 0 None)).
  - reflexivity.
  - vm_compute. lia.
  - repeat constructor; apply Qlt_bool_true; reflexivity.
Defined.

(** X28: during a spin the rotation never goes backwards and stays between
    the rotation at the start and that rotation plus the spin angle. *)
Theorem rotation_never_backwards
    (rotation spinAngle earlier later : Q) :
  (0 <= spinAngle)%Q -> (0 <= earlier)%Q -> (earlier <= later)%Q ->
  (rotation <= rotation_at rotation spinAngle earlier)%Q
  /\ (rotation_at rotation spinAngle earlier
      <= rotation_at rotation spinAngle later)%Q
  /\ (rotation_at rotation spinAngle later <= rotation + spinAngle)%Q.
Proof.
  intros Ha He Hel. unfold rotation_at.
  destruct (progress_range earlier He) as [P1 P2].
  destruct (progress_range later ltac:(lra)) as [P3 P4].
  pose proof (progress_monotone earlier later Hel) as Pm.
  destruct (easeOut_range _ P1 P2) as [E1 E2].
  destruct (easeOut_range _ P3 P4) as [E3 E4].
  pose proof (easeOut_monotone _ _ P1 Pm P4) as Em.
  set (x := easeOut (progress_at earlier)) in *.
  set (y := easeOut (progress_at later)) in *.
  repeat split; nra.
Qed.

Lemma rotation_never_backwards_witness :
  (rotation_at 90 1800 1000 <= rotation_at 90 1800 2500)%Q.
Proof.
  apply (rotation_never_backwards 90 1800 1000 2500);
    apply Qle_bool_true; reflexivity.
Defined.

End SpinExtras.

Section RunExtras.

(** X29: after every sequence of operations from the initial collection,
    ids being handed out fresh, the ids are pairwise different, so a removal
    takes away at most one segment. *)
Theorem ids_stay_unique (ops : list operation) :
  fresh_stamps ops initial_items = true ->
  NoDup (ids (run ops initial_items))
  /\ forall rid : string,
       (List.length (removeItem rid (run ops initial_items))
        >= List.length (run ops initial_items) - 1)%nat.
Proof.
  intros Hfresh.
  pose proof (invariant_run ops initial_items invariant_initial Hfresh) as Hinv.
  split; [apply Hinv|].
  intros rid. unfold removeItem.
  destruct (List.length (run ops initial_items) <=? 2)%nat; [lia|].
  unfold merge_visible. rewrite length_map.
  pose proof (remove_id_length rid _ (unique_ids _ Hinv)). lia.
Qed.

Lemma ids_stay_unique_witness :
  NoDup (ids (run (add_segments 3 ++ [RemoveSegment "2"]) initial_items)).
Proof.
  apply (ids_stay_unique (add_segments 3 ++ [RemoveSegment "2"])).
  reflexivity.
Defined.

Lemma visible_at_most_length (items : list WheelItem) :
  (visible_count items <= List.length items)%nat.
Proof. unfold visible_count, getVisibleItems. apply filter_length_le. Qed.

Lemma positive_run (ops : list operation) : forall s,
  invariant s -> Forall (fun item => 1 <= probability item) s ->
  fresh_stamps ops s = true -> sizes_at_most 100 ops s = true ->
  Forall (fun item => 1 <= probability item) (run ops s).
Proof.
  induction ops as [|o ops IH]; intros s Hinv Hpos Hfresh Hsize; cbn [run].
  - exact Hpos.
  - cbn [fresh_stamps sizes_at_most] in Hfresh, Hsize.
    apply andb_true_iff in Hfresh as [Ho Hfresh].
    apply andb_true_iff in Hsize as [Hlen Hsize].
    apply Nat.leb_le in Hlen.
    apply IH; try assumption.
    + apply (invariant_run [o] s Hinv). cbn [fresh_stamps]. rewrite Ho. reflexivity.
    + apply positive_step; [apply Hinv|exact Hpos|].
      pose proof (visible_at_most_length (apply_operation o s)). lia.
Qed.

(** X30: after every sequence of operations from the initial collection,
    ids being handed out fresh, along which the collection never exceeds 100
    segments, every weight is at least 1. *)
Theorem weights_stay_positive (ops : list operation) :
  fresh_stamps ops initial_items = true ->
  sizes_at_most 100 ops initial_items = true ->
  Forall (fun item => 1 <= probability item) (run ops initial_items).
Proof.
  intros Hfresh Hsize.
  apply positive_run; try assumption; [apply invariant_initial|].
  repeat constructor; cbn; lia.
Qed.

Lemma weights_stay_positive_witness :
  Forall (fun item => 1 <= probability item)
         (run (add_segments 95 ++ [RemoveSegment "1"; ToggleVisibility "2"])
              initial_items).
Proof.
  apply (weights_stay_positive
           (add_segments 95 ++ [RemoveSegment "1"; ToggleVisibility "2"]));
    vm_compute; reflexivity.
Defined.

End RunExtras.
